(** * django-tagging, [tagging/utils.py]: tag input parsing, tag list
      serialisation and tag cloud calculation.

    The Python functions are embedded as Rocq functions.  A Python [str] is
    a list of Unicode code points, an [int] is a [Z], a [float] is a
    primitive binary64 float, an exception is a value of [exn], and the tag
    objects that [calculate_cloud] updates in place live in an explicit
    store. *)

From Stdlib Require Import List ZArith NArith Bool Lia String Ascii.
From Stdlib Require Import Sorting.Sorted Permutation.
From Stdlib Require Import Floats DecimalString.
Import ListNotations.

(** ** Python values *)

(** Exceptions the module can raise, and the outcome of a call. *)
Inductive exn : Type :=
| ValueError (msg : string)
| ZeroDivisionError
| OverflowError
| IndexError
| AttributeError
| StopIteration.

Inductive result (A : Type) : Type :=
| Ok (a : A)
| Err (e : exn).

Arguments Ok {A} a.
Arguments Err {A} e.

(** ** Python strings *)

Module Py.

(** A character is its code point; a [str] is the list of its characters. *)
Abbreviation char := N (only parsing).
Abbreviation str := (list N) (only parsing).

Definition lit (s : string) : str :=
  map N_of_ascii (list_ascii_of_string s).

Definition comma : char := 44%N.
Definition dquote : char := 34%N.
Definition space : char := 32%N.
Definition tab : char := 9%N.

(** [c in s] for a one-character [c]. *)
Definition contains (c : char) (s : str) : bool := existsb (N.eqb c) s.

(** The truth value of a sequence: non-empty. *)
Definition truthy {A} (l : list A) : bool :=
  match l with [] => false | _ :: _ => true end.

(** [str.isspace] on one character: the code points Python's [strip()] and
    [split()] treat as whitespace. *)
Definition isspace (c : char) : bool :=
  ((9 <=? c) && (c <=? 13) || (28 <=? c) && (c <=? 32)
   || (c =? 133) || (c =? 160) || (c =? 5760)
   || (8192 <=? c) && (c <=? 8202)
   || (c =? 8232) || (c =? 8233) || (c =? 8239) || (c =? 8287)
   || (c =? 12288))%N.

Fixpoint lstrip (s : str) : str :=
  match s with
  | c :: s' => if isspace c then lstrip s' else s
  | [] => []
  end.

Definition rstrip (s : str) : str := rev (lstrip (rev s)).

(** [s.strip()] *)
Definition strip (s : str) : str := rstrip (lstrip s).

(** A string has no leading or trailing whitespace. *)
Definition starts_with_space (s : str) : bool :=
  match s with c :: _ => isspace c | [] => false end.

Definition ends_with_space (s : str) : bool := starts_with_space (rev s).

Definition trimmed (s : str) : Prop :=
  starts_with_space s = false /\ ends_with_space s = false.

(** [s.split(sep)] for a one-character separator: one piece more than there
    are separators, empty pieces kept. *)
Fixpoint split (sep : char) (s : str) : list str :=
  match s with
  | [] => [[]]
  | c :: s' =>
      if (c =? sep)%N then [] :: split sep s'
      else match split sep s' with
           | p :: ps => (c :: p) :: ps
           | [] => [[c]]
           end
  end.

(** [s.split()] without a separator: the maximal runs of characters that
    are not whitespace.  [word] is the run being read. *)
Fixpoint split_ws_from (word : str) (s : str) : list str :=
  match s with
  | [] => if truthy word then [word] else []
  | c :: s' =>
      if isspace c
      then (if truthy word then [word] else []) ++ split_ws_from [] s'
      else split_ws_from (word ++ [c]) s'
  end.

Definition split_ws (s : str) : list str := split_ws_from [] s.

(** [glue.join(pieces)] *)
Fixpoint join (glue : str) (pieces : list str) : str :=
  match pieces with
  | [] => []
  | [p] => p
  | p :: ps => p ++ glue ++ join glue ps
  end.

(** String comparison: lexicographic on code points. *)
Fixpoint ltb (a b : str) : bool :=
  match a, b with
  | [], [] => false
  | [], _ :: _ => true
  | _ :: _, [] => false
  | x :: a', y :: b' =>
      if (x <? y)%N then true
      else if (x =? y)%N then ltb a' b' else false
  end.

Fixpoint eqb (a b : str) : bool :=
  match a, b with
  | [], [] => true
  | x :: a', y :: b' => (x =? y)%N && eqb a' b'
  | _, _ => false
  end.

Definition lt (a b : str) : Prop := ltb a b = true.

(** [set(l)]: the distinct elements of [l], in one enumeration order (the
    order Python iterates a set in is unspecified; [sorted_order_irrelevant]
    shows that the order does not matter once the set is sorted). *)
Fixpoint set (l : list str) : list str :=
  match l with
  | [] => []
  | x :: l' => if existsb (eqb x) l' then set l' else x :: set l'
  end.

(** [sorted(l)] *)
Fixpoint insert (x : str) (l : list str) : list str :=
  match l with
  | [] => [x]
  | y :: l' => if ltb y x then y :: insert x l' else x :: l
  end.

Fixpoint sorted (l : list str) : list str :=
  match l with
  | [] => []
  | x :: l' => insert x (sorted l')
  end.

End Py.

(** ** The tag input parser *)

Import Py.

(** [split_strip(input, delimiter)] *)
Definition split_strip (input : str) (delimiter : char) : list str :=
  let words := map strip (split delimiter input) in
  filter truthy words.

(** The local variables of [parse_tag_input] that its scanning loop
    updates. *)
Record locals : Type := Locals {
  words : list str;
  buffer : str;
  to_be_split : list str;
  saw_loose_comma : bool;
  open_quote : bool
}.

Definition initial : locals :=
  {| words := []; buffer := []; to_be_split := [];
     saw_loose_comma := false; open_quote := false |}.

(** [c = next(i)] on the iterator [i] over the characters still to come:
    at the end of the input [next] raises [StopIteration], which goes to
    [raised]; otherwise the character and the iterator moved forward go to
    [got]. *)
Definition next {A} (i : str) (raised : exn -> A) (got : char -> str -> A)
  : A :=
  match i with
  | [] => raised StopIteration
  | c :: i' => got c i'
  end.

(** The body of the [try] block.  [try_block] is the outer [while 1] loop
    at the point [c = next(i)]; [try_block_quote] is the search for the
    matching quote, [while c != quote], at its own [c = next(i)].  Neither
    loop has an exit of its own: the block is left by an exception, and the
    value is the state of the locals at that moment with the exception
    raised. *)
Fixpoint try_block (st : locals) (i : str) {struct i} : locals * exn :=
  next i (fun e => (st, e)) (fun c i' =>
    if (c =? dquote)%N then
      let tbs := if truthy (buffer st)
                 then to_be_split st ++ [buffer st]
                 else to_be_split st in
      try_block_quote {| words := words st; buffer := [];
                         to_be_split := tbs;
                         saw_loose_comma := saw_loose_comma st;
                         open_quote := true |} i'
    else
      let saw := if negb (saw_loose_comma st) && (c =? comma)%N
                 then true else saw_loose_comma st in
      try_block {| words := words st; buffer := buffer st ++ [c];
                   to_be_split := to_be_split st;
                   saw_loose_comma := saw;
                   open_quote := open_quote st |} i')
with try_block_quote (st : locals) (i : str) {struct i} : locals * exn :=
  next i (fun e => (st, e)) (fun c i' =>
    if (c =? dquote)%N then
      let ws := if truthy (buffer st)
                then (let word := strip (buffer st) in
                      if truthy word then words st ++ [word]
                      else words st)
                else words st in
      try_block {| words := ws; buffer := [];
                   to_be_split := to_be_split st;
                   saw_loose_comma := saw_loose_comma st;
                   open_quote := false |} i'
    else
      try_block_quote {| words := words st; buffer := buffer st ++ [c];
                         to_be_split := to_be_split st;
                         saw_loose_comma := saw_loose_comma st;
                         open_quote := open_quote st |} i').

(** The locals at the end of the input, where [next] raises: [scan] for the
    outer loop and [scan_quote] for the search for the matching quote.
    This is the state in which the [try] block is left
    ([ParserFacts.try_block_scan]). *)
Fixpoint scan (st : locals) (i : str) {struct i} : locals :=
  match i with
  | [] => st
  | c :: i' =>
      if (c =? dquote)%N then
        let tbs := if truthy (buffer st)
                   then to_be_split st ++ [buffer st]
                   else to_be_split st in
        scan_quote {| words := words st; buffer := [];
                      to_be_split := tbs;
                      saw_loose_comma := saw_loose_comma st;
                      open_quote := true |} i'
      else
        let saw := if negb (saw_loose_comma st) && (c =? comma)%N
                   then true else saw_loose_comma st in
        scan {| words := words st; buffer := buffer st ++ [c];
                to_be_split := to_be_split st;
                saw_loose_comma := saw;
                open_quote := open_quote st |} i'
  end
with scan_quote (st : locals) (i : str) {struct i} : locals :=
  match i with
  | [] => st
  | c :: i' =>
      if (c =? dquote)%N then
        let ws := if truthy (buffer st)
                  then (let word := strip (buffer st) in
                        if truthy word then words st ++ [word]
                        else words st)
                  else words st in
        scan {| words := ws; buffer := [];
                to_be_split := to_be_split st;
                saw_loose_comma := saw_loose_comma st;
                open_quote := false |} i'
      else
        scan_quote {| words := words st; buffer := buffer st ++ [c];
                      to_be_split := to_be_split st;
                      saw_loose_comma := saw_loose_comma st;
                      open_quote := open_quote st |} i'
  end.

(** The [except StopIteration] handler. *)
Definition on_stop (st : locals) : locals :=
  if truthy (buffer st) then
    {| words := words st; buffer := buffer st;
       to_be_split := to_be_split st ++ [buffer st];
       saw_loose_comma :=
         if open_quote st && contains comma (buffer st)
         then true else saw_loose_comma st;
       open_quote := open_quote st |}
  else st.

Definition delimiter_of (st : locals) : char :=
  if saw_loose_comma st then comma else space.

(** The statements after the [try] block. *)
Definition collect (st : locals) : list str :=
  if truthy (to_be_split st)
  then words st
       ++ flat_map (fun chunk => split_strip chunk (delimiter_of st))
                   (to_be_split st)
  else words st.

(** The truth value of [input], which is [None] or a [str]. *)
Definition truthy_input (input : option str) : bool :=
  match input with
  | None => false
  | Some s => truthy s
  end.

(** [force_str(input)]: a [str] is returned as it is, [None] gives its
    name. *)
Definition force_str_input (input : option str) : str :=
  match input with
  | None => lit "None"
  | Some s => s
  end.

(** [parse_tag_input(input)]; [None] is Python's [None].  An exception
    other than [StopIteration] would not be caught. *)
Definition parse_tag_input (input : option str) : result (list str) :=
  if negb (truthy_input input) then Ok []
  else
    let input := force_str_input input in
    if negb (contains comma input) && negb (contains dquote input)
    then Ok (sorted (set (split_strip input space)))
    else
      let '(st, e) := try_block initial input in
      match e with
      | StopIteration => Ok (sorted (set (collect (on_stop st))))
      | _ => Err e
      end.

(** ** Tag objects *)

(** The attributes of a tag object this module reads or writes;
    [font_size] is absent until [calculate_cloud] sets it. *)
Record Tag : Type := mkTag {
  name : str;
  count : Z;
  font_size : option Z
}.

Definition tag_named (n : str) : Tag :=
  {| name := n; count := 0; font_size := None |}.

(** ** Serialisation *)

Definition quoted (name : str) : str := dquote :: name ++ [dquote].

(** The [for tag in tags] loop of [edit_string_for_tags], from the current
    values of [names] and [use_commas]. *)
Fixpoint edit_names (tags : list Tag) (names : list str) (use_commas : bool)
  : list str * bool :=
  match tags with
  | [] => (names, use_commas)
  | tag :: tags' =>
      let name := name tag in
      if contains comma name
      then edit_names tags' (names ++ [quoted name]) use_commas
      else if contains space name
           then edit_names tags' (names ++ [name])
                           (if negb use_commas then true else use_commas)
           else edit_names tags' (names ++ [name]) use_commas
  end.

(** [edit_string_for_tags(tags)] *)
Definition edit_string_for_tags (tags : list Tag) : str :=
  let '(names, use_commas) := edit_names tags [] false in
  let glue := if use_commas then [comma; space] else [space] in
  let result := join glue names in
  if (List.length names =? 1)%nat && use_commas then quoted result else result.

(** ** Numbers *)

Module Num.

(** [float(n)] for an [int]: the nearest binary64 number, ties to even;
    [OverflowError] when it is out of range. *)
Definition round_int (n : Z) : float :=
  SF2Prim (binary_normalize prec emax n 0 false).

Definition float_of_int (n : Z) : result float :=
  let f := round_int n in
  if is_infinity f then Err OverflowError else Ok f.

(** A number is an [int] or a [float]. *)
Inductive number : Type :=
| PyInt (n : Z)
| PyFloat (f : float).

(** Python compares an [int] with a [float] by value, without rounding the
    [int]: [cmp_int_float n f] is the comparison of [n] with a finite [f]. *)
Definition cmp_int_float (n : Z) (f : float) : option comparison :=
  match Prim2SF f with
  | S754_nan => None
  | S754_infinity s => Some (if s then Gt else Lt)
  | S754_zero _ => Some (n ?= 0)%Z
  | S754_finite s m e =>
      let v := if s then Zneg m else Zpos m in
      Some (if (0 <=? e)%Z then (n ?= v * 2 ^ e)%Z
            else (n * 2 ^ (- e) ?= v)%Z)
  end.

(** [n <= f] and [f == n] *)
Definition int_le_float (n : Z) (f : float) : bool :=
  match cmp_int_float n f with
  | Some Lt | Some Eq => true
  | _ => false
  end.

Definition float_eq_int (f : float) (n : Z) : bool :=
  match cmp_int_float n f with
  | Some Eq => true
  | _ => false
  end.

(** [x <= f] for a number [x] *)
Definition le_float (x : number) (f : float) : bool :=
  match x with
  | PyInt n => int_le_float n f
  | PyFloat g => (g <=? f)%float
  end.

(** [a / b] on floats *)
Definition float_div (a b : float) : result float :=
  if (b =? 0)%float then Err ZeroDivisionError else Ok (a / b)%float.

(** [min(a, b)]: [b] when [b < a], else [a]. *)
Definition float_min (a b : float) : float :=
  if (b <? a)%float then b else a.

(** [min(l)] and [max(l)] of a non-empty list of [int]s. *)
Definition int_min (x : Z) (l : list Z) : Z :=
  fold_left (fun m y => if (y <? m)%Z then y else m) l x.

Definition int_max (x : Z) (l : list Z) : Z :=
  fold_left (fun m y => if (m <? y)%Z then y else m) l x.

(** [range(a, b)] *)
Definition range (a b : Z) : list Z :=
  map (fun k => (a + Z.of_nat k)%Z) (seq 0 (Z.to_nat (b - a))).

(** The decimal digits of an [int], with its sign. *)
Definition decimal (n : Z) : string :=
  DecimalString.NilZero.string_of_int (Z.to_int n).

(** [sys.int_max_str_digits] at its default, and the message of the
    [ValueError] for an [int] with more digits. *)
Definition int_max_str_digits : Z := 4300.

Definition int_max_str_digits_message : string :=
  "Exceeds the limit (4300 digits) for integer string conversion; use sys.set_int_max_str_digits() to increase the limit".

(** ['%s' % n] for an [int]: its decimal digits; an [int] of more than
    [int_max_str_digits] digits is not converted. *)
Definition str_of_int (n : Z) : result string :=
  if (10 ^ int_max_str_digits <=? Z.abs n)%Z
  then Err (ValueError int_max_str_digits_message)
  else Ok (decimal n).

End Num.

Import Num.

(** ** The object store *)

(** Tag objects are mutable and shared: a collection holds references to
    them.  A reference is the position of its object in the store. *)
Definition ref := nat.
Definition store := list Tag.

Fixpoint update (s : store) (r : ref) (f : Tag -> Tag) : store :=
  match s, r with
  | [], _ => []
  | t :: s', O => f t :: s'
  | t :: s', S r' => t :: update s' r' f
  end.

(** A computation that reads and writes the store and may raise; the store
    keeps the writes made before an exception. *)
Definition M (A : Type) : Type := store -> store * result A.

Definition ret {A} (a : A) : M A := fun s => (s, Ok a).
Definition raise {A} (e : exn) : M A := fun s => (s, Err e).
Definition bind {A B} (c : M A) (k : A -> M B) : M B :=
  fun s => match c s with
           | (s', Ok a) => k a s'
           | (s', Err e) => (s', Err e)
           end.
Definition lift {A} (r : result A) : M A := fun s => (s, r).

Notation "x <- c ;; k" := (bind c (fun x => k))
  (at level 61, c at next level, right associativity).
Notation "c ;;; k" := (bind c (fun _ => k))
  (at level 61, right associativity).

(** [tag.count] *)
Definition get_count (r : ref) : M Z :=
  fun s => match nth_error s r with
           | Some t => (s, Ok (count t))
           | None => (s, Err AttributeError)
           end.

(** [tag.font_size = v] *)
Definition set_font_size (r : ref) (v : Z) : M unit :=
  fun s => (update s r (fun t => {| name := name t; count := count t;
                                    font_size := Some v |}), Ok tt).

(** [[f(x) for x in l]] and [for x in l: f(x)] *)
Fixpoint for_list {A B} (f : A -> M B) (l : list A) : M (list B) :=
  match l with
  | [] => ret []
  | x :: l' => y <- f x ;; ys <- for_list f l' ;; ret (y :: ys)
  end.

Fixpoint for_each {A} (f : A -> M unit) (l : list A) : M unit :=
  match l with
  | [] => ret tt
  | x :: l' => f x ;;; for_each f l'
  end.

(** The same for a body that does not touch the store. *)
Fixpoint map_result {A B} (f : A -> result B) (l : list A) : result (list B) :=
  match l with
  | [] => Ok []
  | x :: l' =>
      match f x with
      | Err e => Err e
      | Ok y => match map_result f l' with
                | Err e => Err e
                | Ok ys => Ok (y :: ys)
                end
      end
  end.

(** ** The tag cloud *)

(** Font size distribution algorithms *)
Definition LOGARITHMIC : Z := 1.
Definition LINEAR : Z := 2.

Definition math_domain_error : exn := ValueError "math domain error".

(** The exception of the [raise] statement of [_calculate_tag_weight]:
    the [ValueError] with the formatted message, or the exception of the
    formatting. *)
Definition invalid_distribution (distribution : Z) : exn :=
  match str_of_int distribution with
  | Ok digits =>
      ValueError ("Invalid distribution algorithm specified: "
                  ++ digits ++ ".")
  | Err e => e
  end.

Section Cloud.

(** The C library's [log] on a positive binary64 number: what [math.log]
    returns where it does not raise. *)
Variable libm_log : float -> float.

(** [math.log(n)] for an [int] and [math.log(x)] for a [float] *)
Definition math_log_int (n : Z) : result float :=
  if (n <=? 0)%Z then Err math_domain_error
  else Ok (libm_log (round_int n)).

Definition math_log (x : float) : result float :=
  if (x <=? 0)%float then Err math_domain_error
  else Ok (libm_log x).

(** [_calculate_thresholds(min_weight, max_weight, steps)] *)
Definition _calculate_thresholds (min_weight max_weight : float) (steps : Z)
  : result (list float) :=
  match float_of_int steps with
  | Err e => Err e
  | Ok fsteps =>
      match float_div (max_weight - min_weight) fsteps with
      | Err e => Err e
      | Ok delta =>
          map_result
            (fun i => match float_of_int i with
                      | Err e => Err e
                      | Ok fi => Ok (min_weight + fi * delta)%float
                      end)
            (range 1 (steps + 1))
      end
  end.

(** [_calculate_tag_weight(weight, max_weight, distribution)] *)
Definition _calculate_tag_weight (weight : Z) (max_weight : float)
    (distribution : Z) : result number :=
  if (distribution =? LINEAR)%Z || float_eq_int max_weight 1
  then Ok (PyInt weight)
  else if (distribution =? LOGARITHMIC)%Z then
    match math_log_int weight with
    | Err e => Err e
    | Ok lw =>
        match math_log max_weight with
        | Err e => Err e
        | Ok lm =>
            match float_div (lw * max_weight) lm with
            | Err e => Err e
            | Ok q => Ok (PyFloat (float_min q max_weight))
            end
        end
    end
  else Err (invalid_distribution distribution).

(** The loop [for i in range(steps)] for one tag; the value is [font_set]. *)
Fixpoint size_loop (tag : ref) (tag_weight : number) (thresholds : list float)
    (indices : list Z) (font_set : bool) : M bool :=
  match indices with
  | [] => ret font_set
  | i :: rest =>
      if negb font_set then
        match nth_error thresholds (Z.to_nat i) with
        | None => raise IndexError
        | Some t =>
            if le_float tag_weight t
            then set_font_size tag (i + 1) ;;;
                 size_loop tag tag_weight thresholds rest true
            else size_loop tag tag_weight thresholds rest font_set
        end
      else size_loop tag tag_weight thresholds rest font_set
  end.

(** The body of [for tag in tags]. *)
Definition size_tag (max_weight : float) (thresholds : list float)
    (steps distribution : Z) (tag : ref) : M unit :=
  c <- get_count tag ;;
  tag_weight <- lift (_calculate_tag_weight c max_weight distribution) ;;
  size_loop tag tag_weight thresholds (range 0 steps) false ;;;
  ret tt.

(** [calculate_cloud(tags, steps, distribution)] *)
Definition calculate_cloud (tags : list ref) (steps distribution : Z)
  : M (list ref) :=
  if (0 <? List.length tags)%nat then
    counts <- for_list get_count tags ;;
    match counts with
    | [] => raise (ValueError "min() arg is an empty sequence")
    | c :: cs =>
        min_weight <- lift (float_of_int (int_min c cs)) ;;
        max_weight <- lift (float_of_int (int_max c cs)) ;;
        thresholds <- lift (_calculate_thresholds min_weight max_weight steps) ;;
        for_each (size_tag max_weight thresholds steps distribution) tags ;;;
        ret tags
    end
  else ret tags.

End Cloud.

(** ** Tag list coercion *)

(** The Python values [get_tag_list] tells apart.  A query set made
    elsewhere and an object of any other type are known by a number. *)
Inductive pyobj : Type :=
| ONone
| OStr (s : str)
| OInt (n : Z)
| OTag (t : ref)
| OList (items : list pyobj)
| OTuple (items : list pyobj)
| OQuerySet (of_tags : bool) (k : nat)
| OFilterNames (names : list str)
| OFilterIds (ids : pyobj)
| OOther (k : nat).

(** The members of [contents]: a set of labels, kept without duplicates. *)
Fixpoint contents_add (label : string) (contents : list string) : list string :=
  match contents with
  | [] => [label]
  | l :: rest =>
      if String.eqb l label then contents
      else l :: contents_add label rest
  end.

Definition contents_mem (label : string) (contents : list string) : bool :=
  existsb (String.eqb label) contents.

Definition no_tags_message : string :=
  "If a list or tuple of tags is provided, they must all be tag names, Tag objects or Tag ids.".

Definition invalid_input_message : string :=
  "The tag input given was invalid.".

Section TagList.

(** [force_str] of an object that is not a [str]. *)
Variable text_of : pyobj -> str.

Definition force_str (o : pyobj) : str :=
  match o with
  | OStr s => s
  | _ => text_of o
  end.

(** The loop [for item in tags] of [get_tag_list]. *)
Definition note_item (contents : list string) (item : pyobj) : list string :=
  match item with
  | OStr _ => contents_add "string" contents
  | OTag _ => contents_add "tag" contents
  | OInt _ => contents_add "int" contents
  | _ => contents
  end.

(** The branch of [get_tag_list] for a list or a tuple [tags] with the
    items [items]. *)
Definition get_tag_list_of_sequence (tags : pyobj) (items : list pyobj)
  : result pyobj :=
  if (List.length items =? 0)%nat then Ok tags
  else
    let contents := fold_left note_item items [] in
    if (List.length contents =? 1)%nat then
      if contents_mem "string" contents
      then Ok (OFilterNames (map force_str items))
      else if contents_mem "tag" contents then Ok tags
      else if contents_mem "int" contents then Ok (OFilterIds tags)
      else Ok ONone
    else Err (ValueError no_tags_message).

(** [get_tag_list(tags)]; [OFilterNames names] is
    [Tag.objects.filter(name__in=names)] and [OFilterIds tags] is
    [Tag.objects.filter(id__in=tags)]. *)
Definition get_tag_list (tags : pyobj) : result pyobj :=
  match tags with
  | OTag _ => Ok (OList [tags])
  | OQuerySet true _ | OFilterNames _ | OFilterIds _ => Ok tags
  | OStr s =>
      match parse_tag_input (Some s) with
      | Ok names => Ok (OFilterNames names)
      | Err e => Err e
      end
  | OList items | OTuple items => get_tag_list_of_sequence tags items
  | _ => Err (ValueError invalid_input_message)
  end.

End TagList.

(** ** The tag field *)

(** What the field keeps on a model instance: [None] or a string. *)
Inductive value : Type :=
| VNone
| VStr (s : str).

(** A model instance: its primary key and its [__dict__]. *)
Record instance : Type := mkInstance {
  pk : option Z;
  attrs : list (string * value)
}.

Definition dict_get (key : string) (d : list (string * value)) : option value :=
  match find (fun p => String.eqb (fst p) key) d with
  | Some p => Some (snd p)
  | None => None
  end.

Definition dict_set (key : string) (v : value) (d : list (string * value))
  : list (string * value) :=
  (key, v) :: filter (fun p => negb (String.eqb (fst p) key)) d.

Section TagField.

(** The field's [attname], the [FORCE_LOWERCASE_TAGS] setting,
    [str.lower], and the two queries of the tag manager. *)
Variable attname : string.
Variable FORCE_LOWERCASE_TAGS : bool.
Variable lower : str -> str.
Variable get_for_object : instance -> list Tag.
Variable usage_for_model : list Tag.

Definition cache_name : string :=
  String.append "_" (String.append attname "_cache").

(** [_get_instance_tag_cache(instance)] *)
Definition _get_instance_tag_cache (i : instance) : value :=
  match dict_get cache_name (attrs i) with
  | Some v => v
  | None => VNone
  end.

(** [_set_instance_tag_cache(instance, tags)] *)
Definition _set_instance_tag_cache (i : instance) (tags : value) : instance :=
  {| pk := pk i;
     attrs := dict_set cache_name tags (dict_set attname tags (attrs i)) |}.

(** [__get__(instance, owner)]: the value read, and the instance after the
    read; [None] is access on the model class. *)
Definition __get__ (i : option instance) : value * option instance :=
  match i with
  | None => (VStr (edit_string_for_tags usage_for_model), None)
  | Some i =>
      let i' :=
        match _get_instance_tag_cache i with
        | VNone =>
            match pk i with
            | None => _set_instance_tag_cache i (VStr [])
            | Some _ =>
                _set_instance_tag_cache i
                  (VStr (edit_string_for_tags (get_for_object i)))
            end
        | VStr _ => i
        end in
      (_get_instance_tag_cache i', Some i')
  end.

(** [__set__(instance, value)]; the message of the exception is left
    out. *)
Definition __set__ (i : option instance) (v : value) : result instance :=
  match i with
  | None => Err AttributeError
  | Some i =>
      let v' := match v with
                | VStr s => if FORCE_LOWERCASE_TAGS then VStr (lower s) else v
                | VNone => v
                end in
      Ok (_set_instance_tag_cache i v')
  end.

(** [__delete__(instance)] *)
Definition __delete__ (i : instance) : instance :=
  _set_instance_tag_cache i (VStr []).

(** [_save(instance=i)]: the string handed to [Tag.objects.update_tags],
    [None] when the manager is not called. *)
Definition _save (i : instance) : option str :=
  match _get_instance_tag_cache i with
  | VNone => None
  | VStr tags => Some tags
  end.

End TagField.

(** ** Definitions for the statements *)

(** A stand-in for the C library's [log], to run [calculate_cloud] on
    examples: [log(m * 2^e) = 2 * atanh((m - 1) / (m + 1)) + e * log(2)],
    with the series of [atanh] cut after 30 terms. *)
Definition sample_log (x : float) : float :=
  let '(m, e) := Z.frexp x in
  let z := ((m - 1) / (m + 1))%float in
  let z2 := (z * z)%float in
  let series :=
    fold_right (fun k acc => (1 / round_int (2 * Z.of_nat k + 1) + z2 * acc)%float)
               0%float (seq 0 30) in
  (2 * z * series + round_int e * 0x1.62e42fefa39efp-1)%float.

(** The values [calculate_cloud] computes before its loop over the tags:
    [max_weight] and [thresholds]. *)
Definition weights (tags : list ref) (steps : Z) : M (float * list float) :=
  counts <- for_list get_count tags ;;
  match counts with
  | [] => raise (ValueError "min() arg is an empty sequence")
  | c :: cs =>
      min_weight <- lift (float_of_int (int_min c cs)) ;;
      max_weight <- lift (float_of_int (int_max c cs)) ;;
      thresholds <- lift (_calculate_thresholds min_weight max_weight steps) ;;
      ret (max_weight, thresholds)
  end.

(** The index, counted from [k], of the first threshold that is not below
    the weight [w]. *)
Fixpoint first_admitting (w : number) (thresholds : list float) (k : Z)
  : option Z :=
  match thresholds with
  | [] => None
  | t :: rest =>
      if le_float w t then Some k else first_admitting w rest (k + 1)
  end.

(** What a call of [calculate_cloud] on [tags] may change in the store:
    no object is added or removed, and an object is as it was or, if it is
    one of [tags], as it was but for a [font_size] from 1 to [steps]. *)
Definition resized (steps : Z) (tags : list ref) (s s' : store) : Prop :=
  List.length s' = List.length s
  /\ forall k t, nth_error s k = Some t ->
       exists t', nth_error s' k = Some t'
         /\ (t' = t
             \/ (In k tags
                 /\ exists v, (1 <= v <= steps)%Z
                      /\ t' = mkTag (name t) (count t) (Some v))).

(** The scanning loop one character at a time: in a quote the character
    goes to the search for the matching quote, outside to the outer loop.
    [scan_as_fold] shows that the two loops of the code compute [run]. *)
Definition step (st : locals) (c : char) : locals :=
  if open_quote st then scan_quote st [c] else scan st [c].

Definition run (st : locals) (s : str) : locals := fold_left step s st.

(** A tag name as the parser produces it: not empty, no whitespace at
    either end. *)
Definition clean (w : str) : Prop := w <> [] /\ trimmed w.

(** Every whitespace character of [s] is a space. *)
Definition only_spaces (s : str) : bool :=
  forallb (fun c => implb (isspace c) (c =? space)%N) s.

(** A name the round trip through [edit_string_for_tags] and
    [parse_tag_input] preserves: clean, without comma and double quote. *)
Definition plain (n : str) : Prop :=
  clean n /\ contains comma n = false /\ contains dquote n = false.

(** How [edit_string_for_tags] writes one tag, and whether the tag makes it
    choose the comma joiner. *)
Definition piece (t : Tag) : str :=
  if contains comma (name t) then quoted (name t) else name t.

Definition forces_commas (t : Tag) : bool :=
  negb (contains comma (name t)) && contains space (name t).

(** A buffer as a chunk to be split: nothing when it is empty. *)
Definition chunk (b : str) : list str := if truthy b then [b] else [].

(** ** The specification's wording, for comparison with the code *)

(** The serialisation rules as the specification words them, with the test
    [breaks] deciding which unquoted names force the comma joiner. *)
Definition serialize_with (breaks : str -> bool) (tags : list Tag) : str :=
  let piece t := if contains comma (name t) then quoted (name t) else name t in
  let use_commas :=
    existsb (fun t => negb (contains comma (name t)) && breaks (name t)) tags in
  let joined :=
    join (if use_commas then [comma; space] else [space]) (map piece tags) in
  if (List.length tags =? 1)%nat && use_commas then quoted joined else joined.

(** Follows the specification: the comma joiner is forced by an unquoted
    name that contains whitespace. *)
Definition serialize_spec (tags : list Tag) : str :=
  serialize_with (existsb isspace) tags.

(** Follows the specification: for an input [pre ++ dquote :: tail] whose
    last quote is never closed, the unterminated buffer [tail] is split at
    commas when it contains one, and every other chunk with the delimiter
    chosen by the unquoted commas seen. *)
Definition parse_unterminated_spec (pre tail : str) : list str :=
  let st := scan initial pre in
  let seen := delimiter_of st in
  let forced := if contains comma tail then comma else seen in
  sorted (set (words st
               ++ flat_map (fun c => split_strip c seen)
                           (to_be_split st ++ chunk (buffer st))
               ++ flat_map (fun c => split_strip c forced) (chunk tail))).

(** ** Definitions for the further properties *)

(** [t] occurs in [s] as a run of consecutive characters. *)
Definition substring (t s : str) : Prop := exists a b, s = a ++ t ++ b.

(** A name [edit_string_for_tags] can write so that it is read back: clean
    and without a double quote (a comma is allowed). *)
Definition quotable (n : str) : Prop := clean n /\ contains dquote n = false.

(** The tags an input gives when it takes the scanning loop, whether or not
    the shortcut for inputs without comma and quote applies. *)
Definition parse_by_scan (input : str) : list str :=
  sorted (set (collect (on_stop (scan initial input)))).

(** A tag once [calculate_cloud] has held its weight [w] against the
    thresholds: sized by the first threshold that is not below [w], left
    as it is if every threshold is below [w]. *)
Definition sized_tag (thresholds : list float) (w : number) (t : Tag) : Tag :=
  match first_admitting w thresholds 0 with
  | Some i => mkTag (name t) (count t) (Some (i + 1)%Z)
  | None => t
  end.

(** The kinds of item [get_tag_list] counts in a list or tuple. *)
Definition is_name (o : pyobj) : bool :=
  match o with OStr _ => true | _ => false end.

Definition is_tag (o : pyobj) : bool :=
  match o with OTag _ => true | _ => false end.

Definition is_id (o : pyobj) : bool :=
  match o with OInt _ => true | _ => false end.

(** A list or a tuple with the given items. *)
Definition sequence (tuple : bool) (items : list pyobj) : pyobj :=
  if tuple then OTuple items else OList items.

(** * Facts about the string operations *)

Module PyFacts.

Lemma truthy_true {A} (l : list A) : truthy l = true <-> l <> [].
Proof. destruct l; simpl; split; congruence. Qed.

Lemma truthy_false {A} (l : list A) : truthy l = false <-> l = [].
Proof. destruct l; simpl; split; congruence. Qed.

Lemma contains_true c s : contains c s = true <-> In c s.
Proof.
  unfold contains. rewrite existsb_exists. split.
  - intros (x & Hx & E). apply N.eqb_eq in E. now subst.
  - intros H. exists c. split; [exact H | apply N.eqb_refl].
Qed.

Lemma contains_false c s : contains c s = false <-> ~ In c s.
Proof.
  rewrite <- contains_true. destruct (contains c s); split; congruence.
Qed.

Lemma contains_cons c d s : contains c (d :: s) = (d =? c)%N || contains c s.
Proof. unfold contains. simpl. now rewrite N.eqb_sym. Qed.

Lemma contains_app c a b : contains c (a ++ b) = contains c a || contains c b.
Proof. unfold contains. apply existsb_app. Qed.

(** *** Equality and order *)

Lemma eqb_eq a b : eqb a b = true <-> a = b.
Proof.
  revert b. induction a as [|x a IH]; intros [|y b]; simpl;
    try (split; congruence).
  rewrite andb_true_iff, N.eqb_eq, IH. split.
  - intros [-> ->]. reflexivity.
  - intros E. injection E. auto.
Qed.

Lemma ltb_irrefl a : ltb a a = false.
Proof.
  induction a as [|x a IH]; simpl; [reflexivity|].
  now rewrite N.ltb_irrefl, N.eqb_refl.
Qed.

Lemma ltb_trans a b c : ltb a b = true -> ltb b c = true -> ltb a c = true.
Proof.
  revert b c. induction a as [|x a IH]; intros [|y b] [|z c]; simpl;
    try congruence.
  destruct (N.ltb_spec x y) as [Hxy|Hxy].
  - intros _. destruct (N.ltb_spec y z) as [Hyz|Hyz].
    + intros _. destruct (N.ltb_spec x z); [reflexivity | lia].
    + destruct (N.eqb_spec y z) as [->|]; [|congruence].
      intros _. destruct (N.ltb_spec x z); [reflexivity | lia].
  - destruct (N.eqb_spec x y) as [->|]; [|congruence].
    intros Hab. destruct (N.ltb_spec y z); [reflexivity|].
    destruct (N.eqb_spec y z); [|congruence].
    intros Hbc. eapply IH; eassumption.
Qed.

Lemma ltb_total a b : ltb a b = false -> ltb b a = false -> a = b.
Proof.
  revert b. induction a as [|x a IH]; intros [|y b]; simpl; try congruence.
  destruct (N.ltb_spec x y) as [Hxy|Hxy]; [congruence|].
  destruct (N.ltb_spec y x) as [Hyx|Hyx].
  - destruct (N.eqb_spec x y); [lia | congruence].
  - assert (x = y) by lia. subst y. rewrite N.eqb_refl.
    intros H1 H2. f_equal. now apply IH.
Qed.

(** *** [set] *)

Lemma existsb_eqb_In x l : existsb (eqb x) l = true <-> In x l.
Proof.
  rewrite existsb_exists. split.
  - intros (y & Hy & E). apply eqb_eq in E. now subst.
  - intros H. exists x. split; [exact H | now apply eqb_eq].
Qed.

Lemma set_In x l : In x (set l) <-> In x l.
Proof.
  induction l as [|y l IH]; simpl; [tauto|].
  destruct (existsb (eqb y) l) eqn:E.
  - apply existsb_eqb_In in E. rewrite IH. split; [tauto|].
    intros [->|H]; assumption.
  - simpl. rewrite IH. tauto.
Qed.

Lemma set_NoDup l : NoDup (set l).
Proof.
  induction l as [|y l IH]; simpl; [constructor|].
  destruct (existsb (eqb y) l) eqn:E; [exact IH|].
  constructor; [|exact IH].
  rewrite set_In, <- existsb_eqb_In. congruence.
Qed.

(** *** [sorted] *)

Lemma insert_In x y l : In x (insert y l) <-> x = y \/ In x l.
Proof.
  induction l as [|z l IH]; simpl.
  - intuition congruence.
  - destruct (ltb z y); simpl; rewrite ?IH; intuition congruence.
Qed.

Lemma sorted_In x l : In x (sorted l) <-> In x l.
Proof.
  induction l as [|y l IH]; simpl; [tauto|].
  rewrite insert_In, IH. intuition congruence.
Qed.

Lemma insert_perm x l : Permutation (insert x l) (x :: l).
Proof.
  induction l as [|y l IH]; simpl; [reflexivity|].
  destruct (ltb y x); [|reflexivity].
  rewrite IH. apply perm_swap.
Qed.

Lemma sorted_perm l : Permutation (sorted l) l.
Proof.
  induction l as [|x l IH]; simpl; [reflexivity|].
  rewrite insert_perm. now constructor.
Qed.

Lemma insert_strict x l :
  StronglySorted lt l -> ~ In x l -> StronglySorted lt (insert x l).
Proof.
  induction 1 as [|y l Hs IH Hy]; intros Hx; simpl.
  - repeat constructor.
  - destruct (ltb y x) eqn:Eyx.
    + constructor.
      * apply IH. intros H. apply Hx. now right.
      * rewrite Forall_forall. intros z Hz. apply insert_In in Hz.
        destruct Hz as [->|Hz]; [exact Eyx|].
        rewrite Forall_forall in Hy. now apply Hy.
    + assert (Hxy : lt x y).
      { unfold lt. destruct (ltb x y) eqn:Exy; [reflexivity|].
        exfalso. apply Hx. left. now apply ltb_total. }
      constructor; [now constructor|].
      constructor; [exact Hxy|].
      rewrite Forall_forall in *. intros z Hz.
      eapply ltb_trans; [exact Hxy | now apply Hy].
Qed.

Lemma sorted_strict l : NoDup l -> StronglySorted lt (sorted l).
Proof.
  induction 1 as [|x l Hx Hn IH]; simpl; [constructor|].
  apply insert_strict; [exact IH|]. now rewrite sorted_In.
Qed.

Lemma strict_NoDup l : StronglySorted lt l -> NoDup l.
Proof.
  induction 1 as [|x l Hs IH Hx]; constructor; [|exact IH].
  intros H. rewrite Forall_forall in Hx. specialize (Hx x H).
  unfold lt in Hx. now rewrite ltb_irrefl in Hx.
Qed.

(** Two strictly increasing lists with the same elements are equal. *)
Lemma strict_unique l1 l2 :
  StronglySorted lt l1 -> StronglySorted lt l2 ->
  (forall x, In x l1 <-> In x l2) -> l1 = l2.
Proof.
  intros H1. revert l2. induction H1 as [|x l1 Hs1 IH Hx]; intros l2 H2 Hin.
  - destruct l2 as [|y l2]; [reflexivity|].
    exfalso. apply (Hin y). now left.
  - destruct H2 as [|y l2 Hs2 Hy].
    + exfalso. apply (Hin x). now left.
    + rewrite Forall_forall in Hx, Hy.
      assert (Exy : x = y).
      { assert (Hx2 : In x (y :: l2)) by (apply Hin; now left).
        assert (Hy1 : In y (x :: l1)) by (apply Hin; now left).
        destruct Hx2 as [E|Hx2]; [now symmetry|].
        destruct Hy1 as [E|Hy1]; [exact E|].
        specialize (Hx _ Hy1). specialize (Hy _ Hx2). unfold lt in *.
        pose proof (ltb_trans _ _ _ Hx Hy) as C.
        now rewrite ltb_irrefl in C. }
      subst y. f_equal. apply IH; [exact Hs2|].
      intros z. split; intros Hz.
      * assert (Hz' : In z (x :: l2)) by (apply Hin; now right).
        destruct Hz' as [<-|Hz']; [|exact Hz'].
        specialize (Hx _ Hz). unfold lt in Hx. now rewrite ltb_irrefl in Hx.
      * assert (Hz' : In z (x :: l1)) by (apply Hin; now right).
        destruct Hz' as [<-|Hz']; [|exact Hz'].
        specialize (Hy _ Hz). unfold lt in Hy. now rewrite ltb_irrefl in Hy.
Qed.

(** Whatever order the set is enumerated in, sorting it gives the same
    list. *)
Lemma sorted_order_irrelevant l l' :
  Permutation l' (set l) -> sorted l' = sorted (set l).
Proof.
  intros P. apply strict_unique.
  - apply sorted_strict. eapply Permutation_NoDup; [symmetry; exact P|].
    apply set_NoDup.
  - apply sorted_strict, set_NoDup.
  - intros x. rewrite !sorted_In. split; apply Permutation_in;
      [exact P | symmetry; exact P].
Qed.

(** *** [strip] *)

Lemma lstrip_starts s : starts_with_space (lstrip s) = false.
Proof.
  induction s as [|c s IH]; simpl; [reflexivity|].
  destruct (isspace c) eqn:E; [exact IH | simpl; exact E].
Qed.

Lemma lstrip_decomp s :
  exists ws, s = ws ++ lstrip s /\ forallb isspace ws = true.
Proof.
  induction s as [|c s (ws & E & H)]; simpl.
  - exists []. split; reflexivity.
  - destruct (isspace c) eqn:Ec.
    + exists (c :: ws). simpl. rewrite Ec, H. split; [now f_equal | reflexivity].
    + exists []. split; reflexivity.
Qed.

Lemma lstrip_id s : starts_with_space s = false -> lstrip s = s.
Proof. destruct s as [|c s]; simpl; [reflexivity|]. now intros ->. Qed.

Lemma lstrip_spaces ws s : forallb isspace ws = true -> lstrip (ws ++ s) = lstrip s.
Proof.
  induction ws as [|c ws IH]; simpl; [reflexivity|].
  rewrite andb_true_iff. intros [-> H]. now apply IH.
Qed.

Lemma strip_trimmed s : trimmed (strip s).
Proof.
  unfold trimmed, ends_with_space, strip, rstrip. rewrite rev_involutive.
  split; [|apply lstrip_starts].
  destruct (lstrip_decomp (rev (lstrip s))) as (ws & E & _).
  remember (lstrip (rev (lstrip s))) as u.
  apply (f_equal (@rev char)) in E. rewrite rev_involutive, rev_app_distr in E.
  destruct (rev u) as [|c r] eqn:Eu; [reflexivity|].
  pose proof (lstrip_starts s) as H. rewrite E in H. exact H.
Qed.

Lemma trimmed_strip s : trimmed s -> strip s = s.
Proof.
  intros [H1 H2]. unfold strip, rstrip. rewrite (lstrip_id _ H1).
  unfold ends_with_space in H2. rewrite (lstrip_id _ H2).
  apply rev_involutive.
Qed.

Lemma strip_spaces_left ws s :
  forallb isspace ws = true -> strip (ws ++ s) = strip s.
Proof. intros H. unfold strip. now rewrite lstrip_spaces. Qed.

(** A string without whitespace is its own [strip]. *)
Lemma strip_no_space s :
  (forall c, In c s -> isspace c = false) -> strip s = s.
Proof.
  intros H. apply trimmed_strip. split.
  - destruct s as [|c s]; [reflexivity|]. apply H. now left.
  - unfold ends_with_space. destruct (rev s) as [|c r] eqn:E; [reflexivity|].
    apply H. apply in_rev. rewrite E. now left.
Qed.

(** *** [split] and [join] *)

Lemma split_not_nil sep s : split sep s <> [].
Proof.
  destruct s as [|c s]; simpl; [discriminate|].
  destruct (c =? sep)%N; [discriminate|].
  destruct (split sep s); discriminate.
Qed.

Lemma split_sep_free sep s : ~ In sep s -> split sep s = [s].
Proof.
  induction s as [|c s IH]; simpl; [reflexivity|].
  intros H. destruct (N.eqb_spec c sep) as [->|_]; [exfalso; apply H; now left|].
  rewrite IH; [reflexivity|]. intros H'. apply H. now right.
Qed.

Lemma split_app_sep sep a b :
  ~ In sep a -> split sep (a ++ sep :: b) = a :: split sep b.
Proof.
  induction a as [|c a IH]; simpl; intros H.
  - now rewrite N.eqb_refl.
  - destruct (N.eqb_spec c sep) as [->|_]; [exfalso; apply H; now left|].
    rewrite IH; [reflexivity|]. intros H'. apply H. now right.
Qed.

Lemma split_pieces_sep_free sep s p : In p (split sep s) -> ~ In sep p.
Proof.
  revert p. induction s as [|c s IH]; simpl; intros p.
  - intros [<-|[]]. intros [].
  - destruct (N.eqb_spec c sep) as [->|Hc].
    + intros [<-|H]; [intros [] | now apply IH].
    + destruct (split sep s) as [|q qs] eqn:E.
      * intros [<-|[]]. intros [E'|[]]. now apply Hc.
      * intros [<-|H].
        -- intros [E'|H']; [now apply Hc|]. apply (IH q); [now left | exact H'].
        -- apply IH. now right.
Qed.

Lemma join_cons2 glue p q ps :
  join glue (p :: q :: ps) = p ++ glue ++ join glue (q :: ps).
Proof. reflexivity. Qed.

(** Splitting the space-joined names gives the names back. *)
Lemma split_join sep names :
  names <> [] -> Forall (fun n => ~ In sep n) names ->
  split sep (join [sep] names) = names.
Proof.
  induction names as [|n names IH]; [congruence|].
  intros _ H. inversion H as [|? ? Hn Hr]; subst.
  destruct names as [|m names].
  - simpl. now apply split_sep_free.
  - rewrite join_cons2. cbn [app]. rewrite split_app_sep by exact Hn.
    f_equal. apply IH; [discriminate | exact Hr].
Qed.

(** Splitting the comma-and-space-joined names at the commas gives the
    first name, and every other name behind a space. *)
Lemma split_join_comma names n :
  Forall (fun n => ~ In comma n) (n :: names) ->
  split comma (join [comma; space] (n :: names)) = n :: map (cons space) names.
Proof.
  revert n. induction names as [|m names IH]; intros n H.
  - simpl. inversion H; subst. now apply split_sep_free.
  - inversion H as [|? ? Hn Hr]; subst.
    rewrite join_cons2. cbn [app]. rewrite split_app_sep by exact Hn.
    f_equal. specialize (IH m Hr).
    change (split comma (space :: join [comma; space] (m :: names)))
      with (match split comma (join [comma; space] (m :: names)) with
            | p :: ps => (space :: p) :: ps
            | [] => [[space]]
            end).
    rewrite IH. reflexivity.
Qed.

Lemma split_pieces_subset sep s p c : In p (split sep s) -> In c p -> In c s.
Proof.
  revert p. induction s as [|d s IH]; simpl; intros p.
  - intros [<-|[]] [].
  - destruct (d =? sep)%N.
    + intros [<-|H] Hc; [destruct Hc|]. right. eapply IH; eassumption.
    + destruct (split sep s) as [|q qs].
      * intros [<-|[]] [->|[]]. now left.
      * intros [<-|H] Hc.
        -- destruct Hc as [->|Hc]; [now left|]. right. apply (IH q); auto.
           now left.
        -- right. apply (IH p); [now right | exact Hc].
Qed.

Lemma isspace_space : isspace space = true.
Proof. reflexivity. Qed.

(** Where every whitespace character of [s] is a space, [s.split()] is
    [s.split(' ')] without its empty pieces. *)
Lemma split_ws_from_spaces s : forall w,
  (forall c, In c s -> isspace c = true -> c = space) ->
  split_ws_from w s
  = filter truthy (match split space s with
                   | p :: ps => (w ++ p) :: ps
                   | [] => [w]
                   end).
Proof.
  induction s as [|c s IH]; intros w H; simpl.
  - rewrite app_nil_r. destruct (truthy w); reflexivity.
  - assert (Hs : forall d, In d s -> isspace d = true -> d = space).
    { intros d Hd. apply H. now right. }
    destruct (isspace c) eqn:Ec.
    + rewrite (H c (or_introl eq_refl) Ec). rewrite N.eqb_refl.
      rewrite (IH [] Hs). simpl. rewrite app_nil_r.
      destruct (split space s) as [|p ps] eqn:E;
        [now apply split_not_nil in E|].
      simpl. destruct (truthy w); reflexivity.
    + destruct (N.eqb_spec c space) as [->|_]; [discriminate|].
      rewrite (IH (w ++ [c]) Hs).
      destruct (split space s) as [|p ps]; simpl.
      * reflexivity.
      * now rewrite <- app_assoc.
Qed.

End PyFacts.

(** * The parser *)

Import PyFacts.

Module ParserFacts.

(** The [try] block is left by the [StopIteration] that [next] raises at
    the end of the input, in the outer loop or in the search for the
    matching quote, with the locals as [scan] and [scan_quote] give them. *)
Lemma try_block_scan i : forall st,
  try_block st i = (scan st i, StopIteration)
  /\ try_block_quote st i = (scan_quote st i, StopIteration).
Proof.
  induction i as [|c i IH]; intros st; [split; reflexivity|].
  split; cbn [try_block try_block_quote scan scan_quote next];
    destruct (c =? dquote)%N; apply IH.
Qed.

(** [parse_tag_input] by cases of its input. *)
Lemma parse_tag_input_eq input :
  parse_tag_input input
  = match input with
    | None => Ok []
    | Some [] => Ok []
    | Some input =>
        if negb (contains comma input) && negb (contains dquote input)
        then Ok (sorted (set (split_strip input space)))
        else Ok (sorted (set (collect (on_stop (scan initial input)))))
    end.
Proof.
  destruct input as [[|c s]|]; try reflexivity.
  unfold parse_tag_input.
  cbn [truthy_input truthy negb force_str_input].
  now rewrite (proj1 (try_block_scan (c :: s) initial)).
Qed.

(** The two loops of the code, taken together, read the input one
    character at a time. *)
Lemma scan_as_fold i : forall st,
  (open_quote st = false -> scan st i = run st i)
  /\ (open_quote st = true -> scan_quote st i = run st i).
Proof.
  unfold run. induction i as [|c i IH]; intros st; split; intros Ho;
    try reflexivity; cbn [fold_left].
  - replace (step st c) with (scan st [c]) by (unfold step; now rewrite Ho).
    simpl. destruct (c =? dquote)%N.
    + apply (proj2 (IH _)). reflexivity.
    + apply (proj1 (IH _)). exact Ho.
  - replace (step st c) with (scan_quote st [c])
      by (unfold step; now rewrite Ho).
    simpl. destruct (c =? dquote)%N.
    + apply (proj1 (IH _)). reflexivity.
    + apply (proj2 (IH _)). exact Ho.
Qed.

Lemma scan_run st i : open_quote st = false -> scan st i = run st i.
Proof. apply scan_as_fold. Qed.

Lemma scan_quote_run st i : open_quote st = true -> scan_quote st i = run st i.
Proof. apply scan_as_fold. Qed.

Lemma run_app st a b : run st (a ++ b) = run (run st a) b.
Proof. apply fold_left_app. Qed.

Lemma run_cons st c s : run st (c :: s) = run (step st c) s.
Proof. reflexivity. Qed.

(** Outside a quote, text without quotes goes to the buffer. *)
Lemma run_plain s : forall st,
  open_quote st = false -> contains dquote s = false ->
  run st s = {| words := words st; buffer := buffer st ++ s;
                to_be_split := to_be_split st;
                saw_loose_comma := saw_loose_comma st || contains comma s;
                open_quote := false |}.
Proof.
  induction s as [|c s IH]; intros st Ho Hq.
  - simpl. rewrite app_nil_r, orb_false_r. destruct st; simpl in *. now subst.
  - rewrite contains_cons in Hq. apply orb_false_elim in Hq.
    destruct Hq as [Hc Hq].
    rewrite run_cons. unfold step. rewrite Ho. cbn [scan]. rewrite Hc.
    rewrite IH by (simpl; auto). cbn [words buffer to_be_split saw_loose_comma].
    rewrite <- app_assoc, contains_cons. simpl app. f_equal.
    destruct (saw_loose_comma st), (c =? comma)%N; reflexivity.
Qed.

(** In a quote, text without quotes goes to the buffer and nothing else
    changes. *)
Lemma run_quoted s : forall st,
  open_quote st = true -> contains dquote s = false ->
  run st s = {| words := words st; buffer := buffer st ++ s;
                to_be_split := to_be_split st;
                saw_loose_comma := saw_loose_comma st;
                open_quote := true |}.
Proof.
  induction s as [|c s IH]; intros st Ho Hq.
  - simpl. rewrite app_nil_r. destruct st; simpl in *. now subst.
  - rewrite contains_cons in Hq. apply orb_false_elim in Hq.
    destruct Hq as [Hc Hq].
    rewrite run_cons. unfold step. rewrite Ho. cbn [scan_quote]. rewrite Hc.
    rewrite IH by (simpl; auto). cbn [words buffer to_be_split saw_loose_comma].
    now rewrite <- app_assoc.
Qed.

(** The splitting after the loop, whether or not there is a chunk. *)
Lemma collect_eq st :
  collect st
  = words st ++ flat_map (fun c => split_strip c (delimiter_of st))
                         (to_be_split st).
Proof.
  unfold collect. destruct (to_be_split st); simpl;
    [now rewrite app_nil_r | reflexivity].
Qed.

Lemma on_stop_eq st :
  on_stop st
  = {| words := words st; buffer := buffer st;
       to_be_split := to_be_split st ++ chunk (buffer st);
       saw_loose_comma :=
         saw_loose_comma st || open_quote st && contains comma (buffer st);
       open_quote := open_quote st |}.
Proof.
  unfold on_stop, chunk. destruct (truthy (buffer st)) eqn:Eb.
  - destruct (open_quote st), (contains comma (buffer st)),
      (saw_loose_comma st); reflexivity.
  - apply truthy_false in Eb. rewrite Eb at 2. cbn [contains existsb].
    rewrite app_nil_r, andb_false_r, orb_false_r.
    destruct st; reflexivity.
Qed.

Lemma split_strip_clean s d w : In w (split_strip s d) -> clean w.
Proof.
  unfold split_strip. rewrite filter_In, in_map_iff.
  intros [(p & <- & _) Ht]. split; [now apply truthy_true | apply strip_trimmed].
Qed.

Lemma step_words_clean st c :
  Forall clean (words st) -> Forall clean (words (step st c)).
Proof.
  intros H. unfold step. destruct (open_quote st); simpl;
    destruct (c =? dquote)%N; simpl; try exact H.
  destruct (truthy (buffer st)); [|exact H].
  destruct (truthy (strip (buffer st))) eqn:E; [|exact H].
  apply Forall_app. split; [exact H|]. constructor; [|constructor].
  split; [now apply truthy_true | apply strip_trimmed].
Qed.

Lemma run_words_clean s : forall st,
  Forall clean (words st) -> Forall clean (words (run st s)).
Proof.
  induction s as [|c s IH]; intros st H; [exact H|].
  rewrite run_cons. apply IH. now apply step_words_clean.
Qed.

Lemma collect_clean st :
  Forall clean (words st) -> Forall clean (collect st).
Proof.
  intros H. rewrite collect_eq. apply Forall_app. split; [exact H|].
  rewrite Forall_forall. intros w Hw. apply in_flat_map in Hw.
  destruct Hw as (c & _ & Hw). eapply split_strip_clean; eassumption.
Qed.

Lemma sorted_set_spec ws :
  StronglySorted Py.lt (sorted (set ws)) /\ NoDup (sorted (set ws))
  /\ forall w, In w (sorted (set ws)) <-> In w ws.
Proof.
  assert (H : StronglySorted Py.lt (sorted (set ws)))
    by apply sorted_strict, set_NoDup.
  split; [exact H|]. split; [now apply strict_NoDup|].
  intros w. now rewrite sorted_In, set_In.
Qed.

(** What [parse_tag_input] returns is [sorted(set(ws))] for a list [ws] of
    clean names. *)
Lemma parse_shape input :
  exists ws, parse_tag_input input = Ok (sorted (set ws)) /\ Forall clean ws.
Proof.
  destruct input as [[|c s]|]; try (exists []; split; [reflexivity|constructor]).
  rewrite ParserFacts.parse_tag_input_eq.
  destruct (negb (contains comma (c :: s)) && negb (contains dquote (c :: s))).
  - eexists. split; [reflexivity|]. rewrite Forall_forall.
    intros w. apply split_strip_clean.
  - eexists. split; [reflexivity|]. apply collect_clean.
    rewrite on_stop_eq. cbn [words]. rewrite scan_run by reflexivity.
    apply run_words_clean. constructor.
Qed.

End ParserFacts.

(** ** Input without commas and quotes *)

Lemma split_ws_split_strip s :
  only_spaces s = true -> split_ws s = split_strip s space.
Proof.
  intros H. unfold only_spaces in H. rewrite forallb_forall in H.
  assert (Hs : forall c, In c s -> isspace c = true -> c = space).
  { intros c Hc Ec. specialize (H c Hc). rewrite Ec in H. simpl in H.
    now apply N.eqb_eq. }
  unfold split_ws. rewrite split_ws_from_spaces by exact Hs.
  unfold split_strip.
  replace (map strip (split space s)) with (split space s).
  - destruct (split space s) as [|p ps] eqn:E; [now apply split_not_nil in E|].
    reflexivity.
  - rewrite <- (map_id (split space s)) at 1.
    apply map_ext_in. intros q Hq. symmetry. apply strip_no_space.
    intros c Hc. destruct (isspace c) eqn:Ec; [|reflexivity].
    exfalso. apply (split_pieces_sep_free _ _ _ Hq).
    rewrite <- (Hs c); [exact Hc | | exact Ec].
    eapply split_pieces_subset; eassumption.
Qed.

Lemma parse_fast_path s :
  s <> [] -> contains comma s = false -> contains dquote s = false ->
  parse_tag_input (Some s) = Ok (sorted (set (split_strip s space))).
Proof.
  intros Hs Hc Hq. destruct s as [|c s]; [congruence|].
  rewrite ParserFacts.parse_tag_input_eq. now rewrite Hc, Hq.
Qed.

(** C9: [parse_tag_input] never fails: every input, [None] and the empty
    string included, has a result, and the result for [None] and for the
    empty string is the empty list.  The one exception raised on the way is
    caught: from any state of the locals and on any rest of the input, the
    [try] block is left by the [StopIteration] of [next] at the end of the
    input, in the outer loop or in the search for the matching quote, and
    by no other exception. *)
Theorem parse_tag_input_never_fails (input : option str) :
  (exists tags, parse_tag_input input = Ok tags)
  /\ parse_tag_input None = Ok []
  /\ parse_tag_input (Some []) = Ok []
  /\ forall (st : locals) (i : str),
       snd (try_block st i) = StopIteration
       /\ snd (try_block_quote st i) = StopIteration.
Proof.
  split; [|split; [|split]]; try reflexivity.
  - destruct (ParserFacts.parse_shape input) as (ws & E & _). eauto.
  - intros st i. destruct (ParserFacts.try_block_scan i st) as [-> ->].
    split; reflexivity.
Qed.

(** C8: the list [parse_tag_input] returns is strictly increasing in the
    lexicographic order of strings (so it is sorted and has no duplicates),
    and each of its elements is non-empty and has no whitespace at either
    end. *)
Theorem parse_tag_input_sorted_unique_clean (input : option str) :
  exists tags,
    parse_tag_input input = Ok tags
    /\ StronglySorted Py.lt tags /\ NoDup tags /\ Forall clean tags.
Proof.
  destruct (ParserFacts.parse_shape input) as (ws & E & Hc).
  exists (sorted (set ws)). split; [exact E|].
  destruct (ParserFacts.sorted_set_spec ws) as (H1 & H2 & H3).
  repeat split; try assumption.
  rewrite Forall_forall in *. intros w Hw. apply Hc. now apply H3.
Qed.

(** C3, as the specification states it, fails on a tab: the input
    [a<TAB>b] has no comma and no quote, the code returns the one tag
    [a<TAB>b], and [sorted(set(s.split()))] is [a], [b]. *)
Lemma parse_whitespace_split_counterexample :
  let s := lit "a" ++ [tab] ++ lit "b" in
  s <> [] /\ contains comma s = false /\ contains dquote s = false
  /\ parse_tag_input (Some s) = Ok [s]
  /\ sorted (set (split_ws s)) = [lit "a"; lit "b"]
  /\ parse_tag_input (Some s) <> Ok (sorted (set (split_ws s))).
Proof.
  cbv zeta. repeat split; try reflexivity; vm_compute; discriminate.
Qed.

(** C3, amended: for a non-empty [s] without comma and quote,
    [parse_tag_input(s)] is the sorted set of the non-empty trimmed pieces
    of [s.split(' ')]: only the space character separates tags.  Where
    every whitespace character of [s] is a space, this is
    [sorted(set(s.split()))]. *)
Theorem parse_without_comma_or_quote (s : str) :
  s <> [] -> contains comma s = false -> contains dquote s = false ->
  parse_tag_input (Some s) = Ok (sorted (set (split_strip s space)))
  /\ (only_spaces s = true ->
      parse_tag_input (Some s) = Ok (sorted (set (split_ws s)))).
Proof.
  intros Hs Hc Hq. split; [now apply parse_fast_path|].
  intros Ho. rewrite split_ws_split_strip by exact Ho.
  now apply parse_fast_path.
Qed.

Lemma parse_without_comma_or_quote_witness :
  parse_tag_input (Some (lit "b  a b")) = Ok [lit "a"; lit "b"]
  /\ parse_tag_input (Some (lit "b  a b"))
     = Ok (sorted (set (split_ws (lit "b  a b")))).
Proof.
  split; [reflexivity|].
  apply (parse_without_comma_or_quote (lit "b  a b"));
    [discriminate | reflexivity | reflexivity | reflexivity].
Defined.

(** ** Serialisation *)

Module SerializeFacts.

(** The loop of [edit_string_for_tags] from any values of its variables. *)
Lemma edit_names_eq tags : forall names use_commas,
  edit_names tags names use_commas
  = (names ++ map piece tags, use_commas || existsb forces_commas tags).
Proof.
  induction tags as [|t tags IH]; intros names uc; simpl.
  - now rewrite app_nil_r, orb_false_r.
  - unfold piece at 1, forces_commas at 1.
    destruct (contains comma (name t)); simpl.
    + rewrite IH, <- app_assoc. reflexivity.
    + destruct (contains space (name t)); rewrite IH, <- app_assoc; simpl.
      * destruct uc; reflexivity.
      * reflexivity.
Qed.

Lemma edit_string_eq tags :
  edit_string_for_tags tags = serialize_with (contains space) tags.
Proof.
  unfold edit_string_for_tags, serialize_with.
  rewrite edit_names_eq. simpl. now rewrite length_map.
Qed.

Lemma contains_join c glue names :
  contains c glue = false -> Forall (fun n => contains c n = false) names ->
  contains c (join glue names) = false.
Proof.
  intros Hg. induction 1 as [|n names Hn Hr IH]; [reflexivity|].
  destruct names as [|m names]; [exact Hn|].
  rewrite join_cons2, !contains_app, Hn, Hg. exact IH.
Qed.

Lemma join_not_nil glue n names : n <> [] -> join glue (n :: names) <> [].
Proof.
  intros Hn. destruct names; simpl; [exact Hn|].
  destruct n; [congruence | discriminate].
Qed.

Lemma map_strip_plain names : Forall plain names -> map strip names = names.
Proof.
  induction 1 as [|n names [[_ Ht] _] _ IH]; simpl; [reflexivity|].
  now rewrite IH, trimmed_strip.
Qed.

Lemma filter_truthy_plain names :
  Forall plain names -> filter truthy names = names.
Proof.
  induction 1 as [|n names [[Hn _] _] _ IH]; simpl; [reflexivity|].
  apply truthy_true in Hn. now rewrite Hn, IH.
Qed.

Lemma strip_behind_space names :
  Forall plain names -> map strip (map (cons space) names) = names.
Proof.
  induction 1 as [|n names [[_ Ht] _] _ IH]; simpl; [reflexivity|].
  rewrite IH. f_equal.
  change (space :: n) with ([space] ++ n).
  rewrite strip_spaces_left by reflexivity. now apply trimmed_strip.
Qed.

(** Space-joined plain names without spaces. *)
Lemma parse_space_joined names :
  Forall plain names -> Forall (fun n => contains space n = false) names ->
  parse_tag_input (Some (join [space] names)) = Ok (sorted (set names)).
Proof.
  intros Hp Hs. destruct names as [|n names]; [reflexivity|].
  assert (Hn : n <> []) by (inversion Hp as [|? ? [[H _] _] _]; exact H).
  rewrite parse_fast_path.
  - unfold split_strip. rewrite split_join.
    + now rewrite map_strip_plain, filter_truthy_plain.
    + discriminate.
    + eapply Forall_impl; [|exact Hs]. intros m Hm. now apply contains_false.
  - now apply join_not_nil.
  - apply contains_join; [reflexivity|].
    eapply Forall_impl; [|exact Hp]. now intros m (_ & H & _).
  - apply contains_join; [reflexivity|].
    eapply Forall_impl; [|exact Hp]. now intros m (_ & _ & H).
Qed.

(** One plain name in quotes. *)
Lemma parse_quoted_name n :
  plain n -> parse_tag_input (Some (quoted n)) = Ok (sorted (set [n])).
Proof.
  intros ((Hn & Ht) & _ & Hq). unfold quoted.
  rewrite ParserFacts.parse_tag_input_eq.
  rewrite (contains_cons dquote dquote), N.eqb_refl, andb_false_r.
  rewrite ParserFacts.scan_run by reflexivity.
  rewrite ParserFacts.run_cons, ParserFacts.run_app.
  change (step initial dquote)
    with {| words := []; buffer := []; to_be_split := [];
            saw_loose_comma := false; open_quote := true |}.
  rewrite (ParserFacts.run_quoted n) by (reflexivity || exact Hq).
  cbn [words buffer to_be_split saw_loose_comma app].
  cbn [run fold_left]. unfold step. cbn [open_quote scan_quote].
  rewrite N.eqb_refl. cbn [buffer app words to_be_split saw_loose_comma].
  rewrite (trimmed_strip _ Ht).
  apply truthy_true in Hn. rewrite Hn. reflexivity.
Qed.

(** Two or more plain names joined by comma and space. *)
Lemma parse_comma_joined n m names :
  Forall plain (n :: m :: names) ->
  parse_tag_input (Some (join [comma; space] (n :: m :: names)))
  = Ok (sorted (set (n :: m :: names))).
Proof.
  intros Hp.
  assert (Hq : contains dquote (join [comma; space] (n :: m :: names)) = false).
  { apply contains_join; [reflexivity|].
    eapply Forall_impl; [|exact Hp]. now intros k (_ & _ & H). }
  assert (Hc : contains comma (join [comma; space] (n :: m :: names)) = true).
  { rewrite join_cons2, contains_app. cbn [app].
    rewrite (contains_cons comma comma), N.eqb_refl. apply orb_true_r. }
  assert (Hj : truthy (join [comma; space] (n :: m :: names)) = true).
  { apply truthy_true, join_not_nil. now inversion Hp as [|? ? [[H _] _] _]. }
  rewrite ParserFacts.parse_tag_input_eq.
  destruct (join [comma; space] (n :: m :: names)) as [|c s] eqn:Ej;
    [discriminate|].
  rewrite Hc. cbn [negb andb].
  rewrite ParserFacts.scan_run by reflexivity.
  rewrite ParserFacts.run_plain by (reflexivity || exact Hq).
  rewrite ParserFacts.collect_eq, ParserFacts.on_stop_eq.
  cbn [words buffer to_be_split saw_loose_comma initial app delimiter_of
       open_quote orb andb].
  rewrite Hc. unfold chunk. rewrite Hj. cbn [flat_map app].
  rewrite app_nil_r. rewrite <- Ej. unfold split_strip.
  rewrite split_join_comma.
  - rewrite map_cons. inversion Hp as [|? ? Hn Hr]; subst.
    rewrite (strip_behind_space _ Hr).
    destruct Hn as [[_ Ht] _]. rewrite (trimmed_strip _ Ht).
    now rewrite filter_truthy_plain.
  - eapply Forall_impl; [|exact Hp]. intros k (_ & H & _).
    now apply contains_false.
Qed.

Lemma pieces_plain tags :
  Forall (fun t => plain (name t)) tags -> map piece tags = map name tags.
Proof.
  intros H. apply map_ext_in. intros t Ht. rewrite Forall_forall in H.
  destruct (H t Ht) as (_ & Hc & _). unfold piece. now rewrite Hc.
Qed.

Lemma forces_commas_plain tags :
  Forall (fun t => plain (name t)) tags ->
  existsb forces_commas tags = existsb (contains space) (map name tags).
Proof.
  induction 1 as [|t tags (_ & Hc & _) _ IH]; simpl; [reflexivity|].
  unfold forces_commas at 1. now rewrite Hc, IH.
Qed.

End SerializeFacts.

(** C6: the code at the names [a<TAB>b] and [c].  Neither is quoted and the
    first contains whitespace, so that by the rule of the claim, which is
    the rule of the function's docstring, the string is comma-delimited;
    the code tests for the space character only and joins the two names
    with a single space.  The name [a<TAB>b] is one that [parse_tag_input]
    itself returns. *)
Theorem edit_string_tab_space_delimited :
  let tags := [tag_named (lit "a" ++ [tab] ++ lit "b"); tag_named (lit "c")] in
  existsb isspace (lit "a" ++ [tab] ++ lit "b") = true
  /\ contains comma (lit "a" ++ [tab] ++ lit "b") = false
  /\ parse_tag_input (Some (lit "a" ++ [tab] ++ lit "b"))
     = Ok [lit "a" ++ [tab] ++ lit "b"]
  /\ edit_string_for_tags tags = lit "a" ++ [tab] ++ lit "b c"
  /\ serialize_spec tags = lit "a" ++ [tab] ++ lit "b, c"
  /\ edit_string_for_tags tags <> serialize_spec tags.
Proof.
  cbv zeta. repeat (split; [reflexivity|]). vm_compute. discriminate.
Qed.

(** What the code does: [edit_string_for_tags] puts each name that contains
    a comma in double quotes; it joins the names with comma and space if a
    name that is not quoted contains a space character, and with one space
    otherwise; if there is exactly one name and the comma joiner was chosen,
    the whole result is put in double quotes. *)
Theorem edit_string_for_tags_rules (tags : list Tag) :
  let piece t := if contains comma (name t) then quoted (name t) else name t in
  let use_commas :=
    existsb (fun t => negb (contains comma (name t)) && contains space (name t))
            tags in
  let joined :=
    join (if use_commas then [comma; space] else [space]) (map piece tags) in
  edit_string_for_tags tags
  = if (List.length tags =? 1)%nat && use_commas then quoted joined else joined.
Proof.
  cbv zeta. unfold edit_string_for_tags.
  rewrite SerializeFacts.edit_names_eq. cbn [app orb].
  fold piece. rewrite length_map. reflexivity.
Qed.

(** C5: the code at the one tag whose name is made of [a], a double quote
    and [b].  The name has no comma and no whitespace; it is written as it
    is, without quoting or escaping, and read back as the two tags [a] and
    [b], where the claim, and the docstring of [edit_string_for_tags],
    promise the tag that was written. *)
Theorem round_trip_breaks_on_quote :
  let names := [lit "a" ++ dquote :: lit "b"] in
  Forall (fun n => contains comma n = false /\ existsb isspace n = false) names
  /\ edit_string_for_tags (map tag_named names) = lit "a" ++ dquote :: lit "b"
  /\ parse_tag_input (Some (edit_string_for_tags (map tag_named names)))
     = Ok [lit "a"; lit "b"]
  /\ parse_tag_input (Some (edit_string_for_tags (map tag_named names)))
     <> Ok (sorted (set names)).
Proof.
  cbv zeta. split; [|split; [|split]].
  - repeat constructor.
  - reflexivity.
  - reflexivity.
  - vm_compute. discriminate.
Qed.

(** Where the round trip holds: for tags whose names are not empty, have
    no whitespace at either end, and contain neither a comma nor a double
    quote, parsing the string [edit_string_for_tags] makes of them gives
    the sorted set of their names. *)
Theorem round_trip (tags : list Tag) :
  Forall (fun t => plain (name t)) tags ->
  parse_tag_input (Some (edit_string_for_tags tags))
  = Ok (sorted (set (map name tags))).
Proof.
  intros Hp. rewrite SerializeFacts.edit_string_eq. unfold serialize_with.
  fold piece. change (existsb _ tags) with (existsb forces_commas tags).
  rewrite SerializeFacts.pieces_plain, SerializeFacts.forces_commas_plain by exact Hp.
  rewrite <- (length_map name tags).
  assert (Hn : Forall plain (map name tags)) by now rewrite Forall_map.
  destruct (existsb (contains space) (map name tags)) eqn:Es.
  - destruct (map name tags) as [|n [|m names]].
    + discriminate.
    + simpl. now apply SerializeFacts.parse_quoted_name; inversion Hn.
    + simpl Nat.eqb. cbn [andb]. now apply SerializeFacts.parse_comma_joined.
  - rewrite andb_false_r. apply SerializeFacts.parse_space_joined; [exact Hn|].
    rewrite Forall_forall. intros n Hin.
    destruct (contains space n) eqn:E; [|reflexivity].
    rewrite <- Es. symmetry. apply existsb_exists. eauto.
Qed.

Lemma round_trip_witness :
  parse_tag_input
    (Some (edit_string_for_tags
             [tag_named (lit "foo bar"); tag_named (lit "baz");
              tag_named (lit "baz")]))
  = Ok [lit "baz"; lit "foo bar"].
Proof.
  apply (round_trip [tag_named (lit "foo bar"); tag_named (lit "baz");
                     tag_named (lit "baz")]).
  repeat (apply Forall_cons || apply Forall_nil);
    (split; [split; [discriminate | split; reflexivity]
            | split; reflexivity]).
Defined.

(** ** Unterminated quotes *)

Lemma step_open_quote st :
  open_quote st = false ->
  step st dquote
  = {| words := words st; buffer := [];
       to_be_split := to_be_split st ++ chunk (buffer st);
       saw_loose_comma := saw_loose_comma st; open_quote := true |}.
Proof.
  intros Ho. unfold step, chunk. rewrite Ho. simpl.
  destruct (truthy (buffer st)); [reflexivity | now rewrite app_nil_r].
Qed.

(** An input that ends inside a quote is some text whose quotes are all
    closed, then a quote, then text without a quote. *)
Lemma unterminated_decomposition s :
  open_quote (scan initial s) = true ->
  exists pre tail,
    s = pre ++ dquote :: tail
    /\ open_quote (scan initial pre) = false
    /\ contains dquote tail = false.
Proof.
  rewrite ParserFacts.scan_run by reflexivity.
  induction s as [|c s IH] using rev_ind; [discriminate|].
  rewrite ParserFacts.run_app. cbn [run fold_left]. fold (run initial s).
  unfold step. destruct (open_quote (run initial s)) eqn:Ho.
  - cbn [scan_quote]. destruct (c =? dquote)%N eqn:Ec; [discriminate|].
    intros _. destruct (IH eq_refl) as (pre & tail & -> & Hp & Ht).
    exists pre, (tail ++ [c]). split; [now rewrite <- app_assoc|].
    split; [exact Hp|].
    rewrite contains_app, Ht, contains_cons, Ec. reflexivity.
  - cbn [scan]. destruct (N.eqb_spec c dquote) as [->|]; [|now rewrite Ho].
    intros _. exists s, []. split; [reflexivity|]. split; [|reflexivity].
    now rewrite ParserFacts.scan_run.
Qed.

(** C1, as the specification states it, fails where text precedes the
    unterminated quote: in [a b ] followed by a double quote and [c,d], no
    comma is seen outside a quote, the specification splits the chunk
    [a b ] at the space, and the code splits it at commas, which leaves
    [a b] whole. *)
Lemma parse_unterminated_counterexample :
  let pre := lit "a b " in
  let tail := lit "c,d" in
  open_quote (scan initial pre) = false
  /\ contains dquote tail = false
  /\ saw_loose_comma (scan initial pre) = false
  /\ parse_tag_input (Some (pre ++ dquote :: tail))
     = Ok [lit "a b"; lit "c"; lit "d"]
  /\ parse_unterminated_spec pre tail = [lit "a"; lit "b"; lit "c"; lit "d"]
  /\ parse_tag_input (Some (pre ++ dquote :: tail))
     <> Ok (parse_unterminated_spec pre tail).
Proof.
  cbv zeta. repeat split; try reflexivity. vm_compute. discriminate.
Qed.

(** C1, amended: for an input [pre ++ dquote :: tail] whose last quote is
    never closed, the unterminated buffer [tail] is one more unquoted chunk,
    and one delimiter splits every chunk, [tail] and the earlier ones alike:
    the comma if a comma was seen outside a quote or [tail] contains a
    comma, the space otherwise.  The result is the sorted set of the quoted
    words of [pre] and the trimmed non-empty pieces of the chunks. *)
Theorem parse_unterminated_quote (pre tail : str) :
  open_quote (scan initial pre) = false -> contains dquote tail = false ->
  let st := scan initial pre in
  let delimiter :=
    if saw_loose_comma st || contains comma tail then comma else space in
  open_quote (scan initial (pre ++ dquote :: tail)) = true
  /\ parse_tag_input (Some (pre ++ dquote :: tail))
     = Ok (sorted (set (words st
                        ++ flat_map (fun c => split_strip c delimiter)
                             (to_be_split st ++ chunk (buffer st)
                              ++ chunk tail)))).
Proof.
  intros Ho Hq st delimiter.
  assert (Er : scan initial (pre ++ dquote :: tail)
               = {| words := words st; buffer := tail;
                    to_be_split := to_be_split st ++ chunk (buffer st);
                    saw_loose_comma := saw_loose_comma st;
                    open_quote := true |}).
  { rewrite ParserFacts.scan_run by reflexivity.
    rewrite ParserFacts.run_app, ParserFacts.run_cons.
    rewrite <- (ParserFacts.scan_run initial pre) by reflexivity. fold st.
    rewrite (step_open_quote st Ho).
    now rewrite ParserFacts.run_quoted by (reflexivity || exact Hq). }
  split; [now rewrite Er|].
  rewrite ParserFacts.parse_tag_input_eq.
  destruct (pre ++ dquote :: tail) as [|c s] eqn:E;
    [now destruct pre|]. rewrite <- E in *. clear c s E.
  rewrite (contains_app dquote), (contains_cons dquote dquote), N.eqb_refl.
  rewrite orb_true_r, andb_false_r. rewrite Er.
  rewrite ParserFacts.collect_eq, ParserFacts.on_stop_eq.
  cbn [words buffer to_be_split saw_loose_comma open_quote app andb].
  unfold delimiter_of. cbn [saw_loose_comma]. now rewrite <- app_assoc.
Qed.

Lemma parse_unterminated_quote_witness :
  open_quote (scan initial (dquote :: lit "a,b")) = true
  /\ parse_tag_input (Some (dquote :: lit "a,b")) = Ok [lit "a"; lit "b"].
Proof.
  apply (parse_unterminated_quote [] (lit "a,b")); reflexivity.
Defined.

(** * The tag cloud *)

Module CloudFacts.

Lemma update_length s : forall r f, List.length (update s r f) = List.length s.
Proof.
  induction s as [|t s IH]; intros [|r] f; simpl; try reflexivity.
  now rewrite IH.
Qed.

Lemma nth_error_update s : forall r f k,
  nth_error (update s r f) k
  = if (k =? r)%nat then option_map f (nth_error s k) else nth_error s k.
Proof.
  induction s as [|t s IH]; intros [|r] f [|k]; simpl; try reflexivity.
  - now destruct (k =? r)%nat.
  - apply IH.
Qed.

Lemma range_In a b i : In i (range a b) <-> (a <= i < b)%Z.
Proof.
  unfold range. rewrite in_map_iff. split.
  - intros (k & <- & Hk). apply in_seq in Hk. lia.
  - intros H. exists (Z.to_nat (i - a)). split; [lia|]. apply in_seq. lia.
Qed.

Lemma range_length a b : List.length (range a b) = Z.to_nat (b - a).
Proof. unfold range. now rewrite length_map, length_seq. Qed.

Lemma map_result_length {A B} (f : A -> result B) l : forall l',
  map_result f l = Ok l' -> List.length l' = List.length l.
Proof.
  induction l as [|x l IH]; simpl; intros l' H.
  - injection H as <-. reflexivity.
  - destruct (f x); [|discriminate].
    destruct (map_result f l) as [ys|]; [|discriminate].
    injection H as <-. simpl. now rewrite (IH ys).
Qed.

Lemma thresholds_length mn mx steps th :
  _calculate_thresholds mn mx steps = Ok th ->
  List.length th = Z.to_nat steps.
Proof.
  unfold _calculate_thresholds.
  destruct (float_of_int steps); [|discriminate].
  destruct (float_div _ _); [|discriminate].
  intros H. apply map_result_length in H. rewrite H, range_length.
  f_equal. lia.
Qed.

(** *** What the loops change *)

Lemma resized_refl steps tags s : resized steps tags s s.
Proof. split; [reflexivity|]. intros k t H. exists t. auto. Qed.

Lemma resized_trans steps tags s1 s2 s3 :
  resized steps tags s1 s2 -> resized steps tags s2 s3 ->
  resized steps tags s1 s3.
Proof.
  intros [L1 H1] [L2 H2]. split; [congruence|].
  intros k t Hk. destruct (H1 k t Hk) as (t' & Hk' & Ht').
  destruct (H2 k t' Hk') as (t'' & Hk'' & Ht'').
  exists t''. split; [exact Hk''|].
  destruct Ht'' as [->|(Hin & v & Hv & ->)]; [exact Ht'|].
  right. split; [exact Hin|]. exists v. split; [exact Hv|].
  destruct Ht' as [->|(_ & w & _ & ->)]; reflexivity.
Qed.

Lemma resized_weaken steps tags tags' s s' :
  incl tags tags' -> resized steps tags s s' -> resized steps tags' s s'.
Proof.
  intros Hi [L H]. split; [exact L|]. intros k t Hk.
  destruct (H k t Hk) as (t' & Hk' & Ht'). exists t'. split; [exact Hk'|].
  destruct Ht' as [->|(Hin & Hv)]; [now left | right; auto].
Qed.

Lemma set_font_size_resized steps tag v s :
  (1 <= v <= steps)%Z ->
  resized steps [tag] s (fst (set_font_size tag v s)).
Proof.
  intros Hv. unfold set_font_size. simpl. split; [apply update_length|].
  intros k t Hk. rewrite nth_error_update, Hk. simpl.
  destruct (Nat.eqb_spec k tag) as [->|_]; eexists; split; try reflexivity.
  - right. split; [now left|]. exists v. auto.
  - now left.
Qed.

Lemma size_loop_resized steps tag w th indices : forall font_set s s' res,
  Forall (fun i => 0 <= i < steps)%Z indices ->
  size_loop tag w th indices font_set s = (s', res) ->
  resized steps [tag] s s'.
Proof.
  induction indices as [|i indices IH]; intros font_set s s' res Hi; simpl.
  - unfold ret. intros E. injection E as <- _. apply resized_refl.
  - inversion Hi as [|? ? Hi1 Hi2]; subst.
    destruct font_set; simpl; [now apply IH|].
    destruct (nth_error th (Z.to_nat i)) as [t|].
    + destruct (le_float w t); [|now apply IH].
      unfold bind. simpl. intros E. apply IH in E; [|exact Hi2].
      eapply resized_trans; [|exact E].
      apply (set_font_size_resized steps tag (i + 1) s). lia.
    + unfold raise. intros E. injection E as <- _. apply resized_refl.
Qed.

Lemma get_count_store tag s : fst (get_count tag s) = s.
Proof. unfold get_count. now destruct (nth_error s tag). Qed.

Lemma range_cons a b : (a < b)%Z -> range a b = a :: range (a + 1) b.
Proof.
  intros H. unfold range.
  replace (Z.to_nat (b - a)) with (S (Z.to_nat (b - (a + 1)))) by lia.
  cbn [seq map]. f_equal; [lia|].
  rewrite <- seq_shift, map_map. apply map_ext. intros k. lia.
Qed.

Lemma range_nil a b : (b <= a)%Z -> range a b = [].
Proof.
  intros H. unfold range. now replace (Z.to_nat (b - a)) with O by lia.
Qed.

(** Once a font size is set, the rest of the loop changes nothing. *)
Lemma size_loop_set tag w th indices s :
  size_loop tag w th indices true s = (s, Ok true).
Proof. induction indices as [|i indices IH]; simpl; [reflexivity | exact IH]. Qed.

(** The loop over the indices sets the font size to one more than the
    index of the first threshold that is not below the weight, and sets
    nothing if every threshold is below it. *)
Lemma size_loop_first tag w th : forall rest k s,
  (0 <= k)%Z -> skipn (Z.to_nat k) th = rest ->
  size_loop tag w th (range k (k + Z.of_nat (List.length rest))) false s
  = match first_admitting w rest k with
    | Some i => (fst (set_font_size tag (i + 1) s), Ok true)
    | None => (s, Ok false)
    end.
Proof.
  induction rest as [|t rest IH]; intros k s Hk Hs.
  - rewrite range_nil by (simpl; lia). reflexivity.
  - rewrite range_cons by (simpl List.length; lia).
    cbn [size_loop negb first_admitting].
    assert (Et : nth_error th (Z.to_nat k) = Some t).
    { rewrite <- (firstn_skipn (Z.to_nat k) th) at 1.
      assert (Hl : List.length (firstn (Z.to_nat k) th) = Z.to_nat k).
      { apply firstn_length_le.
        destruct (Nat.le_gt_cases (Z.to_nat k) (List.length th)) as [H|H];
          [exact H|].
        rewrite skipn_all2 in Hs by lia. discriminate. }
      rewrite nth_error_app2 by lia. rewrite Hl, Nat.sub_diag, Hs.
      reflexivity. }
    rewrite Et. destruct (le_float w t).
    + unfold bind. simpl. apply size_loop_set.
    + replace (k + Z.of_nat (List.length (t :: rest)))%Z
        with ((k + 1) + Z.of_nat (List.length rest))%Z
        by (simpl List.length; lia).
      apply IH; [lia|].
      replace (Z.to_nat (k + 1)) with (S (Z.to_nat k)) by lia.
      change (S (Z.to_nat k)) with (1 + Z.to_nat k)%nat.
      rewrite <- skipn_skipn, Hs. reflexivity.
Qed.

Lemma size_loop_thresholds tag w th steps s :
  List.length th = Z.to_nat steps ->
  size_loop tag w th (range 0 steps) false s
  = match first_admitting w th 0 with
    | Some i => (fst (set_font_size tag (i + 1) s), Ok true)
    | None => (s, Ok false)
    end.
Proof.
  intros Hl. destruct (Z.le_gt_cases 0 steps) as [H|H].
  - replace steps with (0 + Z.of_nat (List.length th))%Z by lia.
    now apply size_loop_first.
  - rewrite range_nil by lia. destruct th; [reflexivity|].
    simpl in Hl. lia.
Qed.

Section WithLog.

Variable libm_log : float -> float.

Lemma size_tag_resized mx th steps d tag s s' res :
  size_tag libm_log mx th steps d tag s = (s', res) ->
  resized steps [tag] s s'.
Proof.
  unfold size_tag, bind, get_count, lift, ret.
  destruct (nth_error s tag) as [t|].
  - destruct (_calculate_tag_weight libm_log (count t) mx d) as [w|e].
    + destruct (size_loop tag w th (range 0 steps) false s) as [s1 [b|e]] eqn:E;
        intros E'; injection E' as <- _;
        (eapply size_loop_resized; [|exact E]);
        rewrite Forall_forall; intros i Hi; apply range_In in Hi; lia.
    + intros E. injection E as <- _. apply resized_refl.
  - intros E. injection E as <- _. apply resized_refl.
Qed.

Lemma for_each_resized mx th steps d tags : forall s s' res,
  for_each (size_tag libm_log mx th steps d) tags s = (s', res) ->
  resized steps tags s s'.
Proof.
  induction tags as [|tag tags IH]; intros s s' res; simpl.
  - unfold ret. intros E. injection E as <- _. apply resized_refl.
  - unfold bind.
    destruct (size_tag libm_log mx th steps d tag s) as [s1 [u|e]] eqn:E1.
    + intros E2. apply IH in E2. apply size_tag_resized in E1.
      eapply resized_trans.
      * eapply resized_weaken; [|exact E1]. intros k [->|[]]. now left.
      * eapply resized_weaken; [|exact E2]. intros k Hk. now right.
    + intros E2. injection E2 as <- _. apply size_tag_resized in E1.
      eapply resized_weaken; [|exact E1]. intros k [->|[]]. now left.
Qed.

(** Reading the counts leaves the store alone, and succeeds on references
    to objects of the store. *)
Lemma for_list_get_count tags : forall s,
  fst (for_list get_count tags s) = s.
Proof.
  induction tags as [|tag tags IH]; intros s; simpl; [reflexivity|].
  unfold bind. pose proof (get_count_store tag s) as H1.
  destruct (get_count tag s) as [s1 [c|e]]; simpl in H1; subst s1;
    [|reflexivity].
  pose proof (IH s) as H2.
  destruct (for_list get_count tags s) as [s2 [cs|e]]; simpl in H2; subst s2;
    reflexivity.
Qed.

Lemma weights_store tags steps s : fst (weights tags steps s) = s.
Proof.
  unfold weights, bind. pose proof (for_list_get_count tags s) as H.
  destruct (for_list get_count tags s) as [s1 [[|c cs]|e]]; simpl in H;
    subst s1; try reflexivity.
  unfold lift. destruct (float_of_int (int_min c cs)); [|reflexivity].
  destruct (float_of_int (int_max c cs)); [|reflexivity].
  destruct (_calculate_thresholds _ _ _); reflexivity.
Qed.

(** [calculate_cloud] is [weights], then the loop over the tags. *)
Lemma calculate_cloud_eq tags steps d s :
  calculate_cloud libm_log tags steps d s
  = if (0 <? List.length tags)%nat then
      match weights tags steps s with
      | (s1, Ok (mx, th)) =>
          match for_each (size_tag libm_log mx th steps d) tags s1 with
          | (s2, Ok _) => (s2, Ok tags)
          | (s2, Err e) => (s2, Err e)
          end
      | (s1, Err e) => (s1, Err e)
      end
    else (s, Ok tags).
Proof.
  unfold calculate_cloud, weights.
  destruct (0 <? List.length tags)%nat; [|reflexivity].
  unfold bind. destruct (for_list get_count tags s) as [s1 [[|c cs]|e]];
    try reflexivity.
  unfold lift. destruct (float_of_int (int_min c cs)); [|reflexivity].
  destruct (float_of_int (int_max c cs)); [|reflexivity].
  destruct (_calculate_thresholds _ _ _); reflexivity.
Qed.

Lemma calculate_cloud_resized tags steps d s s' res :
  calculate_cloud libm_log tags steps d s = (s', res) ->
  resized steps tags s s'.
Proof.
  rewrite calculate_cloud_eq.
  destruct (0 <? List.length tags)%nat.
  - pose proof (weights_store tags steps s) as Hw.
    destruct (weights tags steps s) as [s1 [[mx th]|e]]; simpl in Hw; subst s1.
    + destruct (for_each (size_tag libm_log mx th steps d) tags s)
        as [s2 [u|e]] eqn:E; intros E'; injection E' as <- _;
        eapply for_each_resized; exact E.
    + intros E. injection E as <- _. apply resized_refl.
  - intros E. injection E as <- _. apply resized_refl.
Qed.

Lemma calculate_cloud_returns tags steps d s s' r :
  calculate_cloud libm_log tags steps d s = (s', Ok r) -> r = tags.
Proof.
  rewrite calculate_cloud_eq.
  destruct (0 <? List.length tags)%nat; [|congruence].
  destruct (weights tags steps s) as [s1 [[mx th]|e]]; [|discriminate].
  destruct (for_each _ tags s1) as [s2 [u|e]]; congruence.
Qed.

(** The objects [weights] read all exist. *)
Lemma for_list_get_count_valid tags : forall s s1 cs,
  for_list get_count tags s = (s1, Ok cs) ->
  Forall (fun r => nth_error s r <> None) tags.
Proof.
  induction tags as [|tag tags IH]; intros s s1 cs; simpl; [constructor|].
  unfold bind. unfold get_count at 1.
  destruct (nth_error s tag) as [t|] eqn:Et; [|discriminate].
  destruct (for_list get_count tags s) as [s2 [cs'|e]] eqn:E; [|discriminate].
  intros _. constructor; [congruence|]. eapply IH. exact E.
Qed.

Lemma weights_valid tags steps s s1 p :
  weights tags steps s = (s1, Ok p) ->
  Forall (fun r => nth_error s r <> None) tags
  /\ List.length (snd p) = Z.to_nat steps.
Proof.
  unfold weights, bind.
  destruct (for_list get_count tags s) as [s2 [[|c cs]|e]] eqn:E;
    try discriminate.
  unfold lift. destruct (float_of_int (int_min c cs)) as [mn|]; [|discriminate].
  destruct (float_of_int (int_max c cs)) as [mx|]; [|discriminate].
  destruct (_calculate_thresholds mn mx steps) as [th|] eqn:Et; [|discriminate].
  unfold ret. intros H. injection H as _ <-. split.
  - eapply for_list_get_count_valid. exact E.
  - simpl. eapply thresholds_length. exact Et.
Qed.

(** With one threshold for each index, the loop over the indices does not
    raise. *)
Lemma size_loop_ok steps tag w th indices : forall font_set s,
  List.length th = Z.to_nat steps ->
  Forall (fun i => 0 <= i < steps)%Z indices ->
  exists s' b, size_loop tag w th indices font_set s = (s', Ok b).
Proof.
  induction indices as [|i indices IH]; intros font_set s Hl Hi; simpl.
  - unfold ret. eauto.
  - inversion Hi as [|? ? Hi1 Hi2]; subst.
    destruct font_set; simpl; [now apply IH|].
    destruct (nth_error th (Z.to_nat i)) as [t|] eqn:Et.
    + destruct (le_float w t); [|now apply IH].
      unfold bind. simpl. now apply IH.
    + exfalso. apply nth_error_None in Et. lia.
Qed.

Lemma for_each_cons {A} (f : A -> M unit) x l s :
  for_each f (x :: l) s
  = match f x s with
    | (s1, Ok _) => for_each f l s1
    | (s1, Err e) => (s1, Err e)
    end.
Proof. reflexivity. Qed.

Lemma size_tag_eq mx th steps d tag s t :
  nth_error s tag = Some t ->
  size_tag libm_log mx th steps d tag s
  = match _calculate_tag_weight libm_log (count t) mx d with
    | Ok w =>
        match size_loop tag w th (range 0 steps) false s with
        | (s1, Ok _) => (s1, Ok tt)
        | (s1, Err e) => (s1, Err e)
        end
    | Err e => (s, Err e)
    end.
Proof.
  intros E. unfold size_tag, bind, get_count, lift, ret. rewrite E.
  destruct (_calculate_tag_weight libm_log (count t) mx d); reflexivity.
Qed.

Lemma invalid_distribution_cases d :
  invalid_distribution d
  = if (10 ^ int_max_str_digits <=? Z.abs d)%Z
    then ValueError int_max_str_digits_message
    else ValueError ("Invalid distribution algorithm specified: "
                     ++ decimal d ++ ".").
Proof.
  unfold invalid_distribution, str_of_int.
  now destruct (10 ^ int_max_str_digits <=? Z.abs d)%Z.
Qed.

Lemma invalid_distribution_value_error d :
  exists msg, invalid_distribution d = ValueError msg.
Proof.
  rewrite invalid_distribution_cases.
  destruct (10 ^ int_max_str_digits <=? Z.abs d)%Z; eauto.
Qed.



(** What the body of the loop over the tags does to one tag. *)
Lemma size_tag_first mx th steps d tag s t w :
  nth_error s tag = Some t -> List.length th = Z.to_nat steps ->
  _calculate_tag_weight libm_log (count t) mx d = Ok w ->
  size_tag libm_log mx th steps d tag s
  = (match first_admitting w th 0 with
     | Some i => fst (set_font_size tag (i + 1) s)
     | None => s
     end, Ok tt).
Proof.
  intros Et Hl Hw. rewrite (size_tag_eq _ _ _ _ _ _ _ Et), Hw.
  rewrite size_loop_thresholds by exact Hl.
  destruct (first_admitting w th 0); reflexivity.
Qed.



End WithLog.

End CloudFacts.

(** C10: a call of [calculate_cloud] that succeeds returns the collection
    it was given (the same references in the same order); it adds no object
    to the store and removes none; every object keeps its [name] and its
    [count], and is as it was or, if the collection refers to it, as it was
    but for its [font_size].  On the empty collection the call succeeds and
    changes nothing. *)
Theorem calculate_cloud_frame (libm_log : float -> float)
    (tags : list ref) (steps distribution : Z) (s s' : store) (r : list ref) :
  (calculate_cloud libm_log tags steps distribution s = (s', Ok r) ->
   r = tags /\ resized steps tags s s')
  /\ calculate_cloud libm_log [] steps distribution s = (s, Ok []).
Proof.
  split; [|reflexivity]. intros H. split.
  - eapply CloudFacts.calculate_cloud_returns; exact H.
  - eapply CloudFacts.calculate_cloud_resized; exact H.
Qed.

Lemma calculate_cloud_frame_witness :
  let s := [mkTag (lit "a") 1 None; mkTag (lit "b") 10 None;
            mkTag (lit "c") 100 None] in
  let s' := [mkTag (lit "a") 1 (Some 1%Z); mkTag (lit "b") 10 (Some 2%Z);
             mkTag (lit "c") 100 (Some 4%Z)] in
  calculate_cloud sample_log [0; 1; 2]%nat 4 LOGARITHMIC s
  = (s', Ok [0; 1; 2]%nat)
  /\ resized 4 [0; 1; 2]%nat s s'.
Proof.
  cbv zeta. split; [vm_compute; reflexivity|].
  apply (proj1 (calculate_cloud_frame sample_log [0; 1; 2]%nat 4 LOGARITHMIC
                  _ _ [0; 1; 2]%nat)).
  vm_compute. reflexivity.
Defined.

(** C7: the code at counts 1 and 62 with 7 steps and the linear
    distribution.  The call succeeds; the last threshold,
    [1 + 7 * ((62 - 1) / 7)] in binary64 arithmetic, is below 62, so no
    threshold admits the weight 62 and the second tag is left without a
    [font_size]. *)
Theorem calculate_cloud_leaves_tag_unsized :
  let s := [mkTag (lit "a") 1 None; mkTag (lit "b") 62 None] in
  calculate_cloud sample_log [0; 1]%nat 7 LINEAR s
  = ([mkTag (lit "a") 1 (Some 1%Z); mkTag (lit "b") 62 None], Ok [0; 1]%nat)
  /\ exists thresholds,
       weights [0; 1]%nat 7 s = (s, Ok (62%float, thresholds))
       /\ List.length thresholds = 7%nat
       /\ (last thresholds 0 <? 62)%float = true
       /\ _calculate_tag_weight sample_log 62 62 LINEAR = Ok (PyInt 62)
       /\ first_admitting (PyInt 62) thresholds 0 = None.
Proof.
  cbv zeta. split; [vm_compute; reflexivity|].
  eexists. split; [vm_compute; reflexivity|].
  repeat split; vm_compute; reflexivity.
Qed.

(** * The examples of the specification *)

Example parse_quoted_span :
  parse_tag_input (Some (quoted (lit "a,b") ++ lit " c"))
  = Ok [lit "a,b"; lit "c"].
Proof. vm_compute. reflexivity. Qed.

Example parse_single_multiword :
  edit_string_for_tags [tag_named (lit "foo bar")] = quoted (lit "foo bar")
  /\ parse_tag_input (Some (quoted (lit "foo bar"))) = Ok [lit "foo bar"].
Proof. split; vm_compute; reflexivity. Qed.

Example parse_naughty_input :
  parse_tag_input (Some (lit "a-one " ++ quoted (lit "a-two") ++ lit " and "
                         ++ dquote :: lit "a-three"))
  = Ok [lit "a-one"; lit "a-three"; lit "a-two"; lit "and"].
Proof. vm_compute. reflexivity. Qed.

Example split_ws_example :
  split_ws (lit " a  b" ++ [tab] ++ lit "c ") = [lit "a"; lit "b"; lit "c"]
  /\ split space (lit " a  b") = [[]; lit "a"; []; lit "b"]
  /\ strip (tab :: lit " a b  ") = lit "a b".
Proof. repeat split. Qed.

Example sample_log_example :
  (round_int 4605170 / 1000000 <? sample_log 100)%float = true
  /\ (sample_log 100 <? round_int 4605171 / 1000000)%float = true.
Proof. split; vm_compute; reflexivity. Qed.

Example cloud_all_ones :
  calculate_cloud sample_log [0; 1; 2; 3]%nat 4 LOGARITHMIC
    (map (mkTag [] 1) [None; None; None; None])
  = (map (mkTag [] 1) [Some 1; Some 1; Some 1; Some 1]%Z,
     Ok [0; 1; 2; 3]%nat).
Proof. vm_compute. reflexivity. Qed.

Example cloud_empty :
  calculate_cloud sample_log [] 4 LOGARITHMIC [] = ([], Ok []).
Proof. reflexivity. Qed.

Example cloud_zero_steps :
  calculate_cloud sample_log [0%nat] 0 LINEAR [mkTag [] 3 None]
  = ([mkTag [] 3 None], Err ZeroDivisionError).
Proof. vm_compute. reflexivity. Qed.

Example cloud_shared_tag :
  calculate_cloud sample_log [0; 1; 0]%nat 4 LINEAR
    [mkTag [] 2 None; mkTag [] 10 None]
  = ([mkTag [] 2 (Some 1%Z); mkTag [] 10 (Some 4%Z)], Ok [0; 1; 0]%nat).
Proof. vm_compute. reflexivity. Qed.

(** * Further properties of the parser *)

Module ParserMore.

Lemma lstrip_In c s : In c (lstrip s) -> In c s.
Proof.
  destruct (lstrip_decomp s) as (ws & E & _). intros H. rewrite E.
  apply in_or_app. now right.
Qed.

Lemma strip_In c s : In c (strip s) -> In c s.
Proof.
  unfold strip, rstrip. intros H. apply in_rev in H. apply lstrip_In in H.
  apply in_rev in H. now apply lstrip_In.
Qed.

Lemma substring_refl s : substring s s.
Proof. exists [], []. now rewrite app_nil_r. Qed.

Lemma substring_trans a b c : substring a b -> substring b c -> substring a c.
Proof.
  intros (x & y & ->) (u & v & ->). exists (u ++ x), (y ++ v).
  now rewrite <- !app_assoc.
Qed.

Lemma substring_app_l t a b : substring t a -> substring t (a ++ b).
Proof.
  intros (x & y & ->). exists x, (y ++ b). now rewrite <- !app_assoc.
Qed.

Lemma substring_suffix t a : substring t (a ++ t).
Proof. exists a, []. now rewrite app_nil_r. Qed.

Lemma lstrip_substring s : substring (lstrip s) s.
Proof.
  destruct (lstrip_decomp s) as (ws & E & _). exists ws, [].
  now rewrite app_nil_r.
Qed.

Lemma strip_substring s : substring (strip s) s.
Proof.
  unfold strip, rstrip.
  apply substring_trans with (lstrip s); [|apply lstrip_substring].
  destruct (lstrip_substring (rev (lstrip s))) as (a & b & E).
  exists (rev b), (rev a).
  apply (f_equal (@rev N)) in E.
  rewrite rev_involutive, !rev_app_distr, <- app_assoc in E. exact E.
Qed.

Lemma split_head_prefix sep s : forall q qs,
  split sep s = q :: qs -> exists b, s = q ++ b.
Proof.
  induction s as [|c s IH]; simpl; intros q qs E.
  - injection E as <- _. now exists [].
  - destruct (c =? sep)%N.
    + injection E as <- _. now exists (c :: s).
    + destruct (split sep s) as [|q' qs'] eqn:E'.
      * injection E as <- _. now exists s.
      * injection E as <- _. destruct (IH q' qs' eq_refl) as (b & ->).
        now exists b.
Qed.

Lemma split_substring sep s : forall p, In p (split sep s) -> substring p s.
Proof.
  induction s as [|c s IH]; simpl; intros p.
  - intros [<-|[]]. apply substring_refl.
  - destruct (c =? sep)%N.
    + intros [<-|H]; [exists [], (c :: s); reflexivity|].
      destruct (IH p H) as (a & b & ->). exists (c :: a), b. reflexivity.
    + destruct (split sep s) as [|q qs] eqn:E.
      * intros [<-|[]]. exists [], s. reflexivity.
      * intros [<-|H].
        -- destruct (split_head_prefix sep s q qs E) as (b & ->).
           exists [], b. reflexivity.
        -- destruct (IH p (or_intror H)) as (a & b & ->).
           exists (c :: a), b. reflexivity.
Qed.

Lemma split_strip_substring s d w : In w (split_strip s d) -> substring w s.
Proof.
  unfold split_strip. rewrite filter_In, in_map_iff.
  intros [(p & <- & Hp) _].
  eapply substring_trans; [apply strip_substring|].
  eapply split_substring. exact Hp.
Qed.

Lemma split_strip_sep_free s d w : In w (split_strip s d) -> ~ In d w.
Proof.
  unfold split_strip. rewrite filter_In, in_map_iff.
  intros [(p & <- & Hp) _] H. apply strip_In in H.
  now apply (split_pieces_sep_free _ _ _ Hp).
Qed.

Lemma split_strip_In_chars s d w c :
  In w (split_strip s d) -> In c w -> In c s.
Proof.
  intros Hw Hc. destruct (split_strip_substring _ _ _ Hw) as (a & b & ->).
  apply in_or_app. right. apply in_or_app. now left.
Qed.

(** *** What the scanning loop keeps *)

(** Each word and each chunk set aside so far is a run of consecutive
    characters of the text read, and the buffer is the end of that text. *)
Definition from_text (text : str) (st : locals) : Prop :=
  Forall (fun w => substring w text) (words st)
  /\ Forall (fun c => substring c text) (to_be_split st)
  /\ exists a, text = a ++ buffer st.

Lemma Forall_substring_app ws text c :
  Forall (fun w => substring w text) ws ->
  Forall (fun w => substring w (text ++ [c])) ws.
Proof.
  intros H. eapply Forall_impl; [|exact H]. intros w Hw.
  now apply substring_app_l.
Qed.

Lemma step_from_text text st c :
  from_text text st -> from_text (text ++ [c]) (step st c).
Proof.
  intros (Hw & Ht & a & Ea). unfold step.
  assert (Hb : substring (buffer st) (text ++ [c])).
  { apply substring_app_l. rewrite Ea. apply substring_suffix. }
  destruct (open_quote st); simpl; destruct (c =? dquote)%N; simpl.
  - split; [|split].
    + destruct (truthy (buffer st)); [|now apply Forall_substring_app].
      destruct (truthy (strip (buffer st)));
        [|now apply Forall_substring_app].
      apply Forall_app. split; [now apply Forall_substring_app|].
      constructor; [|constructor].
      eapply substring_trans; [apply strip_substring | exact Hb].
    + now apply Forall_substring_app.
    + exists (text ++ [c]). now rewrite app_nil_r.
  - split; [now apply Forall_substring_app|].
    split; [now apply Forall_substring_app|].
    exists a. rewrite Ea. now rewrite <- app_assoc.
  - split; [now apply Forall_substring_app|]. split.
    + destruct (truthy (buffer st)); [|now apply Forall_substring_app].
      apply Forall_app. split; [now apply Forall_substring_app|].
      constructor; [exact Hb | constructor].
    + exists (text ++ [c]). now rewrite app_nil_r.
  - split; [now apply Forall_substring_app|].
    split; [now apply Forall_substring_app|].
    exists a. rewrite Ea. now rewrite <- app_assoc.
Qed.

Lemma run_from_text s : forall text st,
  from_text text st -> from_text (text ++ s) (run st s).
Proof.
  induction s as [|c s IH]; intros text st H.
  - now rewrite app_nil_r.
  - rewrite ParserFacts.run_cons.
    replace (text ++ c :: s) with ((text ++ [c]) ++ s)
      by now rewrite <- app_assoc.
    apply IH. now apply step_from_text.
Qed.

(** No word, chunk or buffer holds a double quote. *)
Definition quote_free (st : locals) : Prop :=
  Forall (fun w => ~ In dquote w) (words st)
  /\ Forall (fun c => ~ In dquote c) (to_be_split st)
  /\ ~ In dquote (buffer st).

Lemma step_quote_free st c : quote_free st -> quote_free (step st c).
Proof.
  intros (Hw & Ht & Hb). unfold step.
  destruct (open_quote st); simpl; destruct (N.eqb_spec c dquote) as [->|Hc];
    simpl.
  - split; [|split; [exact Ht | intros []]].
    destruct (truthy (buffer st)); [|exact Hw].
    destruct (truthy (strip (buffer st))); [|exact Hw].
    apply Forall_app. split; [exact Hw|]. constructor; [|constructor].
    intros H. apply Hb. now apply strip_In.
  - split; [exact Hw|]. split; [exact Ht|].
    intros H. apply in_app_or in H. destruct H as [H|[H|[]]]; auto.
  - split; [exact Hw|]. split; [|intros []].
    destruct (truthy (buffer st)); [|exact Ht].
    apply Forall_app. split; [exact Ht|]. constructor; [exact Hb|constructor].
  - split; [exact Hw|]. split; [exact Ht|].
    intros H. apply in_app_or in H. destruct H as [H|[H|[]]]; auto.
Qed.

Lemma run_quote_free s : forall st, quote_free st -> quote_free (run st s).
Proof.
  induction s as [|c s IH]; intros st H; [exact H|].
  rewrite ParserFacts.run_cons. apply IH. now apply step_quote_free.
Qed.

Lemma on_stop_words st : words (on_stop st) = words st.
Proof. now rewrite ParserFacts.on_stop_eq. Qed.

Lemma on_stop_chunks st :
  to_be_split (on_stop st) = to_be_split st ++ chunk (buffer st).
Proof. now rewrite ParserFacts.on_stop_eq. Qed.

(** The tags of an input that takes the scanning loop. *)
Lemma collected_In st w :
  In w (collect (on_stop st))
  <-> In w (words st)
      \/ exists c, In c (to_be_split st ++ chunk (buffer st))
           /\ In w (split_strip c (delimiter_of (on_stop st))).
Proof.
  rewrite ParserFacts.collect_eq, in_app_iff, in_flat_map.
  rewrite on_stop_words, on_stop_chunks. reflexivity.
Qed.

End ParserMore.

(** X1: every piece [split_strip] returns is non-empty, has no whitespace
    at either end, does not contain the delimiter, and occurs in the input
    as a run of consecutive characters. *)
Theorem split_strip_pieces (input : str) (delimiter : char) (w : str) :
  In w (split_strip input delimiter) ->
  clean w /\ ~ In delimiter w /\ substring w input.
Proof.
  intros H. split; [|split].
  - eapply ParserFacts.split_strip_clean; exact H.
  - eapply ParserMore.split_strip_sep_free; exact H.
  - eapply ParserMore.split_strip_substring; exact H.
Qed.

Lemma split_strip_pieces_witness :
  clean (lit "b c") /\ ~ In comma (lit "b c")
  /\ substring (lit "b c") (lit "a , b c ,").
Proof.
  apply (split_strip_pieces (lit "a , b c ,") comma (lit "b c")).
  vm_compute. auto.
Defined.

(** X2: every tag [parse_tag_input] returns occurs in the input as a run of
    consecutive characters: the parser cuts and trims, it never joins or
    rewrites text. *)
Theorem parse_tags_occur_in_input (input : str) :
  exists tags,
    parse_tag_input (Some input) = Ok tags
    /\ Forall (fun t => substring t input) tags.
Proof.
  destruct input as [|c s]; [exists []; split; [reflexivity | constructor]|].
  rewrite ParserFacts.parse_tag_input_eq.
  destruct (negb (contains comma (c :: s)) && negb (contains dquote (c :: s))).
  - eexists. split; [reflexivity|]. rewrite Forall_forall. intros t Ht.
    rewrite sorted_In, set_In in Ht.
    eapply ParserMore.split_strip_substring; exact Ht.
  - eexists. split; [reflexivity|]. rewrite Forall_forall. intros t Ht.
    rewrite sorted_In, set_In in Ht. apply ParserMore.collected_In in Ht.
    rewrite ParserFacts.scan_run in Ht by reflexivity.
    destruct (ParserMore.run_from_text (c :: s) [] initial) as (Hw & Hc & a & Ea).
    { split; [constructor|]. split; [constructor|]. now exists []. }
    simpl app in *. rewrite Forall_forall in Hw, Hc.
    destruct Ht as [Ht|(k & Hk & Ht)]; [now apply Hw|].
    apply ParserMore.substring_trans with k;
      [eapply ParserMore.split_strip_substring; exact Ht|].
    apply in_app_or in Hk. destruct Hk as [Hk|Hk]; [now apply Hc|].
    unfold chunk in Hk. destruct (truthy _); [|destruct Hk].
    destruct Hk as [<-|[]]. rewrite Ea. apply ParserMore.substring_suffix.
Qed.

Lemma parse_quote_free (input : option str) :
  exists tags,
    parse_tag_input input = Ok tags
    /\ Forall (fun t => ~ In dquote t) tags.
Proof.
  destruct input as [[|c s]|];
    try (exists []; split; [reflexivity | constructor]).
  rewrite ParserFacts.parse_tag_input_eq.
  destruct (contains dquote (c :: s)) eqn:Eq.
  - rewrite andb_false_r. eexists. split; [reflexivity|].
    rewrite Forall_forall. intros t Ht.
    rewrite sorted_In, set_In in Ht. apply ParserMore.collected_In in Ht.
    rewrite ParserFacts.scan_run in Ht by reflexivity.
    destruct (ParserMore.run_quote_free (c :: s) initial) as (Hw & Hc & Hb).
    { split; [constructor|]. split; [constructor | intros []]. }
    rewrite Forall_forall in Hw, Hc.
    destruct Ht as [Ht|(k & Hk & Ht)]; [now apply Hw|].
    intros Hq. eapply ParserMore.split_strip_In_chars in Hq; [|exact Ht].
    apply in_app_or in Hk. destruct Hk as [Hk|Hk]; [now apply (Hc k)|].
    unfold chunk in Hk. destruct (truthy _); [|destruct Hk].
    destruct Hk as [<-|[]]. now apply Hb.
  - apply contains_false in Eq.
    destruct (negb (contains comma (c :: s)) && negb false);
      (eexists; split; [reflexivity|]); rewrite Forall_forall; intros t Ht;
      rewrite sorted_In, set_In in Ht; intros Hq.
    + eapply ParserMore.split_strip_In_chars in Hq; [|exact Ht]. now apply Eq.
    + apply ParserMore.collected_In in Ht.
      rewrite ParserFacts.scan_run in Ht by reflexivity.
      destruct (ParserMore.run_quote_free (c :: s) initial) as (Hw & Hc & Hb).
      { split; [constructor|]. split; [constructor | intros []]. }
      rewrite Forall_forall in Hw, Hc.
      destruct Ht as [Ht|(k & Hk & Ht)]; [now apply (Hw t)|].
      eapply ParserMore.split_strip_In_chars in Hq; [|exact Ht].
      apply in_app_or in Hk. destruct Hk as [Hk|Hk]; [now apply (Hc k)|].
      unfold chunk in Hk. destruct (truthy _); [|destruct Hk].
      destruct Hk as [<-|[]]. now apply Hb.
Qed.

(** X3: no tag [parse_tag_input] returns contains a double quote. *)
Theorem parse_tags_have_no_quote (input : option str) :
  exists tags,
    parse_tag_input input = Ok tags
    /\ Forall (fun t => ~ In dquote t) tags.
Proof. apply parse_quote_free. Qed.

(** X4: an input with a comma and without a double quote is split at its
    commas only: the result is the sorted set of the non-empty trimmed
    pieces between the commas, so a tag may contain spaces and no tag
    contains a comma. *)
Theorem parse_comma_delimited (s : str) :
  contains comma s = true -> contains dquote s = false ->
  parse_tag_input (Some s) = Ok (sorted (set (split_strip s comma)))
  /\ Forall (fun t => ~ In comma t) (sorted (set (split_strip s comma))).
Proof.
  intros Hc Hq. split.
  - rewrite ParserFacts.parse_tag_input_eq. destruct s as [|c s]; [discriminate|].
    rewrite Hc. cbn [negb andb].
    rewrite ParserFacts.scan_run by reflexivity.
    rewrite ParserFacts.run_plain by (reflexivity || exact Hq).
    rewrite ParserFacts.collect_eq, ParserFacts.on_stop_eq.
    cbn [words buffer to_be_split saw_loose_comma initial app delimiter_of
         open_quote orb andb].
    rewrite Hc. unfold chunk. cbn [truthy flat_map app].
    now rewrite app_nil_r.
  - rewrite Forall_forall. intros t Ht. rewrite sorted_In, set_In in Ht.
    eapply ParserMore.split_strip_sep_free. exact Ht.
Qed.

Lemma parse_comma_delimited_witness :
  parse_tag_input (Some (lit "one two, three ,,one two"))
  = Ok [lit "one two"; lit "three"]
  /\ Forall (fun t => ~ In comma t) [lit "one two"; lit "three"].
Proof.
  apply (parse_comma_delimited (lit "one two, three ,,one two")); reflexivity.
Defined.

(** ** The shortcut and the round trip *)

Module RoundTrip.

Lemma sorted_set_ext a b :
  (forall x, In x a <-> In x b) -> sorted (set a) = sorted (set b).
Proof.
  intros H. apply strict_unique; try (apply sorted_strict, set_NoDup).
  intros x. rewrite !sorted_In, !set_In. apply H.
Qed.

Lemma sorted_set_fixed l : StronglySorted Py.lt l -> sorted (set l) = l.
Proof.
  intros H. apply strict_unique; [apply sorted_strict, set_NoDup | exact H|].
  intros x. now rewrite sorted_In, set_In.
Qed.

Lemma split_app sep x y :
  split sep (x ++ sep :: y) = split sep x ++ split sep y.
Proof.
  induction x as [|c x IH]; simpl.
  - now rewrite N.eqb_refl.
  - destruct (c =? sep)%N; rewrite IH; [reflexivity|].
    destruct (split sep x) as [|p ps] eqn:E; [now apply split_not_nil in E|].
    reflexivity.
Qed.

Lemma split_strip_app x y d :
  split_strip (x ++ d :: y) d = split_strip x d ++ split_strip y d.
Proof. unfold split_strip. now rewrite split_app, map_app, filter_app. Qed.

Lemma split_strip_nil d : split_strip [] d = [].
Proof. reflexivity. Qed.

Lemma split_strip_space d : split_strip [space] d = [].
Proof.
  unfold split_strip. cbn [split]. destruct (space =? d)%N; reflexivity.
Qed.

Lemma split_strip_name n d :
  clean n -> ~ In d n -> split_strip n d = [n].
Proof.
  intros [Hn Ht] Hd. unfold split_strip. rewrite split_sep_free by exact Hd.
  simpl. rewrite trimmed_strip by exact Ht.
  apply truthy_true in Hn. now rewrite Hn.
Qed.

Lemma split_strip_space_name n :
  clean n -> ~ In comma n -> split_strip (space :: n) comma = [n].
Proof.
  intros [Hn Ht] Hd. unfold split_strip. rewrite split_sep_free.
  - simpl map. change (space :: n) with ([space] ++ n).
    rewrite strip_spaces_left by reflexivity.
    rewrite trimmed_strip by exact Ht. simpl.
    apply truthy_true in Hn. now rewrite Hn.
  - intros [H|H]; [discriminate | now apply Hd].
Qed.

Lemma flat_map_chunk d b :
  flat_map (fun c => split_strip c d) (chunk b) = split_strip b d.
Proof.
  unfold chunk. destruct b; simpl; [reflexivity | now rewrite app_nil_r].
Qed.

(** The tags a state of the loop stands for, if the input ends there. *)
Definition gather (d : char) (st : locals) : list str :=
  words st
  ++ flat_map (fun c => split_strip c d) (to_be_split st)
  ++ split_strip (buffer st) d.

Lemma collect_gather st :
  open_quote st = false ->
  collect (on_stop st) = gather (delimiter_of st) st.
Proof.
  intros Ho. rewrite ParserFacts.collect_eq, ParserFacts.on_stop_eq.
  unfold gather, delimiter_of.
  cbn [words to_be_split saw_loose_comma]. rewrite Ho. cbn [andb].
  rewrite orb_false_r, flat_map_app, flat_map_chunk. reflexivity.
Qed.

(** The shortcut is the scanning loop on an input without comma and
    quote. *)
Lemma parse_is_scan s :
  s <> [] -> parse_tag_input (Some s) = Ok (parse_by_scan s).
Proof.
  intros Hs. unfold parse_by_scan.
  destruct (contains comma s) eqn:Ec; [|destruct (contains dquote s) eqn:Eq].
  - destruct s; [congruence|]. rewrite ParserFacts.parse_tag_input_eq. now rewrite Ec.
  - destruct s; [congruence|]. rewrite ParserFacts.parse_tag_input_eq.
    now rewrite Eq, andb_false_r.
  - rewrite parse_fast_path by assumption.
    rewrite ParserFacts.scan_run by reflexivity.
    rewrite collect_gather
      by (rewrite ParserFacts.run_plain by (reflexivity || exact Eq);
          reflexivity).
    rewrite ParserFacts.run_plain by (reflexivity || exact Eq).
    unfold gather, delimiter_of. cbn [words to_be_split buffer saw_loose_comma
      initial flat_map app]. now rewrite Ec.
Qed.

Lemma step_close_quote st :
  open_quote st = true ->
  step st dquote
  = {| words := if truthy (buffer st)
                then (if truthy (strip (buffer st))
                      then words st ++ [strip (buffer st)] else words st)
                else words st;
       buffer := []; to_be_split := to_be_split st;
       saw_loose_comma := saw_loose_comma st; open_quote := false |}.
Proof. intros Ho. unfold step. now rewrite Ho. Qed.

Section Units.

(** The joiner and the delimiter that goes with it. *)
Variable use_commas : bool.

Let glue : str := if use_commas then [comma; space] else [space].
Let d : char := if use_commas then comma else space.

(** A name that is written without quotes does not contain the
    delimiter. *)
Definition fits (t : Tag) : Prop :=
  quotable (name t)
  /\ (contains comma (name t) = false -> ~ In d (name t)).

(** One more tag, behind the separator [sep]. *)
Lemma run_unit st sep t :
  open_quote st = false -> fits t ->
  contains dquote sep = false ->
  (forall n, clean n -> ~ In d n ->
     split_strip (buffer st ++ sep ++ n) d = split_strip (buffer st) d ++ [n]) ->
  split_strip (buffer st ++ sep) d = split_strip (buffer st) d ->
  let st' := run st (sep ++ piece t) in
  open_quote st' = false
  /\ saw_loose_comma st' = saw_loose_comma st || contains comma sep
  /\ forall x, In x (gather d st') <-> In x (gather d st) \/ x = name t.
Proof.
  intros Ho ((Hcl & Hq) & Hd) Hsq Hsplit Hsplit0. unfold piece.
  destruct (contains comma (name t)) eqn:Ec.
  - (* written in quotes *)
    unfold quoted. rewrite ParserFacts.run_app.
    rewrite (ParserFacts.run_plain sep) by assumption.
    rewrite ParserFacts.run_cons, step_open_quote by reflexivity.
    rewrite ParserFacts.run_app.
    rewrite (ParserFacts.run_quoted (name t)) by (reflexivity || exact Hq).
    cbn [run fold_left]. rewrite step_close_quote by reflexivity.
    cbn [words buffer to_be_split saw_loose_comma open_quote app].
    destruct Hcl as [Hn Ht]. rewrite (trimmed_strip _ Ht).
    apply truthy_true in Hn. rewrite Hn.
    split; [reflexivity|]. split; [reflexivity|].
    intros x. unfold gather.
    cbn [words buffer to_be_split saw_loose_comma open_quote].
    rewrite flat_map_app, flat_map_chunk, Hsplit0, split_strip_nil.
    rewrite !in_app_iff. simpl. intuition.
  - (* written as it is *)
    assert (Hqt : contains dquote (sep ++ name t) = false)
      by now rewrite contains_app, Hsq, Hq.
    rewrite ParserFacts.run_plain by assumption.
    cbn [words buffer to_be_split saw_loose_comma open_quote].
    split; [reflexivity|]. split.
    + now rewrite contains_app, Ec, orb_false_r.
    + intros x. unfold gather.
      cbn [words buffer to_be_split saw_loose_comma open_quote].
      rewrite Hsplit by (try exact Hcl; now apply Hd).
      rewrite !in_app_iff. simpl. intuition.
Qed.

Lemma glue_split b n :
  clean n -> ~ In d n ->
  split_strip (b ++ glue ++ n) d = split_strip b d ++ [n].
Proof.
  intros Hn Hd. subst glue d. destruct use_commas; cbn [app].
  - rewrite split_strip_app. f_equal. now apply split_strip_space_name.
  - rewrite split_strip_app. f_equal. now apply split_strip_name.
Qed.

Lemma glue_split0 b : split_strip (b ++ glue) d = split_strip b d.
Proof.
  subst glue d. destruct use_commas; cbn [app]; rewrite split_strip_app.
  - now rewrite split_strip_space, app_nil_r.
  - now rewrite split_strip_nil, app_nil_r.
Qed.

Lemma glue_quote_free : contains dquote glue = false.
Proof. subst glue. now destruct use_commas. Qed.

Lemma glue_comma : contains comma glue = use_commas.
Proof. subst glue. now destruct use_commas. Qed.

(** The tags after the first, each behind the joiner. *)
Lemma run_units rest : forall st,
  open_quote st = false -> Forall fits rest ->
  let st' := run st (List.concat (map (fun t => glue ++ piece t) rest)) in
  open_quote st' = false
  /\ saw_loose_comma st'
     = saw_loose_comma st || (use_commas && truthy rest)
  /\ forall x, In x (gather d st')
       <-> In x (gather d st) \/ In x (map name rest).
Proof.
  induction rest as [|t rest IH]; intros st Ho Hf.
  - simpl. rewrite andb_false_r, orb_false_r. intuition.
  - inversion Hf as [|? ? Ht Hr]; subst. cbn [map List.concat].
    rewrite ParserFacts.run_app.
    destruct (run_unit st glue t Ho Ht glue_quote_free
                (glue_split (buffer st)) (glue_split0 (buffer st)))
      as (Ho1 & Hs1 & Hg1).
    destruct (IH _ Ho1 Hr) as (Ho2 & Hs2 & Hg2).
    split; [exact Ho2|]. split.
    + rewrite Hs2, Hs1, glue_comma. cbn [truthy].
      now rewrite andb_true_r, <- orb_assoc, absorption_orb.
    + intros x. rewrite Hg2, Hg1. simpl. intuition.
Qed.

Lemma join_concat p ps :
  join glue (p :: ps) = p ++ List.concat (map (fun q => glue ++ q) ps).
Proof.
  revert p. induction ps as [|q ps IH]; intros p.
  - simpl. now rewrite app_nil_r.
  - rewrite join_cons2, IH. cbn [map List.concat]. now rewrite <- !app_assoc.
Qed.

(** All the tags of a list, joined. *)
Lemma run_joined t rest :
  Forall fits (t :: rest) ->
  let st := run initial (join glue (map piece (t :: rest))) in
  open_quote st = false
  /\ saw_loose_comma st = use_commas && truthy rest
  /\ forall x, In x (gather d st) <-> In x (map name (t :: rest)).
Proof.
  intros Hf. inversion Hf as [|? ? Ht Hr]; subst. cbn [map].
  rewrite join_concat, map_map, ParserFacts.run_app.
  destruct (run_unit initial [] t eq_refl Ht eq_refl) as (Ho1 & Hs1 & Hg1).
  { intros n Hn Hd. simpl. now apply split_strip_name. }
  { reflexivity. }
  simpl app in Ho1, Hs1, Hg1.
  destruct (run_units rest _ Ho1 Hr) as (Ho2 & Hs2 & Hg2).
  split; [exact Ho2|]. split.
  - rewrite Hs2, Hs1. reflexivity.
  - intros x. rewrite Hg2, Hg1. simpl. intuition.
Qed.

End Units.

End RoundTrip.

Lemma fits_of_quotable tags :
  Forall (fun t => quotable (name t)) tags ->
  Forall (RoundTrip.fits (existsb forces_commas tags)) tags.
Proof.
  intros H. rewrite Forall_forall in *. intros t Ht. split; [now apply H|].
  intros Hc. destruct (existsb forces_commas tags) eqn:E.
  - now apply contains_false.
  - apply contains_false. destruct (contains space (name t)) eqn:Es;
      [|reflexivity].
    rewrite <- E. symmetry. apply existsb_exists. exists t.
    split; [exact Ht|]. unfold forces_commas. now rewrite Hc, Es.
Qed.

Lemma piece_not_nil t : quotable (name t) -> piece t <> [].
Proof.
  intros [[Hn _] _]. unfold piece, quoted.
  destruct (contains comma (name t)); [discriminate | exact Hn].
Qed.

(** Writing tags with quotable names and reading the string back. *)
Lemma round_trip_quotable tags :
  Forall (fun t => quotable (name t)) tags ->
  parse_tag_input (Some (edit_string_for_tags tags))
  = Ok (sorted (set (map name tags))).
Proof.
  intros Hq. rewrite SerializeFacts.edit_string_eq. unfold serialize_with.
  fold piece. change (existsb _ tags) with (existsb forces_commas tags).
  pose proof (fits_of_quotable tags Hq) as Hf.
  destruct tags as [|t rest]; [reflexivity|].
  set (uc := existsb forces_commas (t :: rest)) in *.
  destruct ((List.length (t :: rest) =? 1)%nat && uc) eqn:E1.
  - (* one name with a space, in quotes *)
    apply andb_prop in E1. destruct E1 as [El Eu].
    destruct rest; [|discriminate]. clear El.
    subst uc. simpl in Eu. rewrite orb_false_r in Eu.
    unfold forces_commas in Eu. apply andb_prop in Eu.
    destruct Eu as [Ec _]. apply negb_true_iff in Ec.
    cbn [map join]. unfold piece. rewrite Ec.
    inversion Hq as [|? ? [Hcl Hdq] _]; subst.
    apply SerializeFacts.parse_quoted_name. repeat split; try assumption;
      apply Hcl.
  - rewrite RoundTrip.parse_is_scan.
    2:{ apply SerializeFacts.join_not_nil, piece_not_nil.
        now inversion Hq. }
    unfold parse_by_scan. rewrite ParserFacts.scan_run by reflexivity.
    destruct (RoundTrip.run_joined uc t rest Hf) as (Ho & Hs & Hg).
    rewrite RoundTrip.collect_gather by exact Ho.
    f_equal. apply RoundTrip.sorted_set_ext. intros x. rewrite <- Hg.
    unfold delimiter_of. rewrite Hs.
    replace (uc && truthy rest) with uc; [reflexivity|].
    destruct rest; [|now rewrite andb_true_r].
    simpl in E1. rewrite E1. reflexivity.
Qed.

(** X5: on every input [parse_tag_input] returns what its scanning loop
    returns on that input; so on an input without comma and double quote
    the shortcut returns what the loop would return, and the special case
    changes no result. *)
Theorem parse_shortcut_agrees (s : str) :
  parse_tag_input (Some s) = Ok (parse_by_scan s).
Proof.
  destruct s as [|c s]; [reflexivity|].
  apply RoundTrip.parse_is_scan. discriminate.
Qed.

(** X6: for tags whose names are clean and contain no double quote, a
    comma in a name allowed, parsing the string [edit_string_for_tags]
    makes of them gives the sorted set of their names. *)
Theorem round_trip_with_commas (tags : list Tag) :
  Forall (fun t => quotable (name t)) tags ->
  parse_tag_input (Some (edit_string_for_tags tags))
  = Ok (sorted (set (map name tags))).
Proof. apply round_trip_quotable. Qed.

Lemma round_trip_with_commas_witness :
  parse_tag_input
    (Some (edit_string_for_tags
             [tag_named (lit "x, y"); tag_named (lit "foo bar");
              tag_named (lit "baz")]))
  = Ok [lit "baz"; lit "foo bar"; lit "x, y"].
Proof.
  apply (round_trip_with_commas
           [tag_named (lit "x, y"); tag_named (lit "foo bar");
            tag_named (lit "baz")]).
  repeat (apply Forall_cons || apply Forall_nil);
    (split; [split; [discriminate | split; reflexivity] | reflexivity]).
Defined.

(** X7: parsing is idempotent through the serialisation: the tags parsed
    from any input, written by [edit_string_for_tags] and parsed again,
    are the same tags. *)
Theorem parse_edit_parse (input : option str) :
  exists tags,
    parse_tag_input input = Ok tags
    /\ parse_tag_input (Some (edit_string_for_tags (map tag_named tags)))
       = Ok tags.
Proof.
  destruct (ParserFacts.parse_shape input) as (ws & E & Hc).
  destruct (ParserFacts.sorted_set_spec ws) as (Hs & _ & Hin).
  destruct (parse_quote_free input) as (tags & E' & Hq).
  rewrite E in E'. injection E' as <-.
  exists (sorted (set ws)). split; [exact E|].
  rewrite round_trip_quotable.
  - rewrite map_map. cbn [name tag_named]. rewrite map_id.
    now rewrite RoundTrip.sorted_set_fixed.
  - rewrite Forall_map. cbn [name tag_named].
    rewrite Forall_forall in *. intros t Ht. split.
    + apply Hc. now apply Hin.
    + apply contains_false. now apply Hq.
Qed.

(** * Further properties of the tag cloud *)

Module CloudMore.

Lemma sized_tag_count th w t : count (sized_tag th w t) = count t.
Proof. unfold sized_tag. now destruct (first_admitting w th 0). Qed.

Lemma sized_tag_again th w t : sized_tag th w (sized_tag th w t) = sized_tag th w t.
Proof. unfold sized_tag. now destruct (first_admitting w th 0). Qed.

Lemma int_le_float_mono n m f :
  (n <= m)%Z -> int_le_float m f = true -> int_le_float n f = true.
Proof.
  unfold int_le_float, cmp_int_float. intros Hnm.
  destruct (Prim2SF f) as [s|s| |s p e]; try easy.
  - destruct (Z.compare_spec m 0), (Z.compare_spec n 0); try easy; lia.
  - destruct (0 <=? e)%Z.
    + destruct (Z.compare_spec m ((if s then Z.neg p else Z.pos p) * 2 ^ e)),
        (Z.compare_spec n ((if s then Z.neg p else Z.pos p) * 2 ^ e));
        try easy; lia.
    + assert (Hp : (0 <= 2 ^ (- e))%Z) by apply Z.pow_nonneg, Z.le_0_2.
      destruct (Z.compare_spec (m * 2 ^ (- e)) (if s then Z.neg p else Z.pos p)),
        (Z.compare_spec (n * 2 ^ (- e)) (if s then Z.neg p else Z.pos p));
        try easy; nia.
Qed.

Lemma first_admitting_mono n m th : forall k j,
  (n <= m)%Z -> first_admitting (PyInt m) th k = Some j ->
  exists i, first_admitting (PyInt n) th k = Some i /\ (i <= j)%Z.
Proof.
  induction th as [|t th IH]; intros k j Hnm; simpl; [discriminate|].
  destruct (int_le_float m t) eqn:Em.
  - intros E. injection E as <-.
    rewrite (int_le_float_mono n m t Hnm Em). exists k. split; [reflexivity|lia].
  - intros E. destruct (int_le_float n t).
    + exists k. split; [reflexivity|].
      clear - E. revert k E. induction th as [|t th IH]; intros k; simpl;
        [discriminate|].
      destruct (int_le_float m t); [intros E; injection E as <-; lia|].
      intros E. apply IH in E. lia.
    + now apply IH.
Qed.

Section WithLog.

Variable libm_log : float -> float.
Variables (max_weight : float) (thresholds : list float).
Variables (steps distribution : Z).

Let weigh (t : Tag) : result number :=
  _calculate_tag_weight libm_log (count t) max_weight distribution.

(** The store [s1] on the way from [s]: the tags the loop has been through
    are sized, the others are as they were. *)
Definition sized_so_far (s : store) (done : list ref) (s1 : store) : Prop :=
  List.length s1 = List.length s
  /\ forall k t, nth_error s k = Some t ->
       (In k done ->
          exists w, weigh t = Ok w
            /\ nth_error s1 k = Some (sized_tag thresholds w t))
       /\ (~ In k done -> nth_error s1 k = Some t).

Lemma sized_so_far_ext s a b s1 :
  (forall k, In k a <-> In k b) ->
  sized_so_far s a s1 -> sized_so_far s b s1.
Proof.
  intros H [L I]. split; [exact L|]. intros k t Hk.
  destruct (I k t Hk) as [I1 I2]. split; intros Hb.
  - apply I1. now apply H.
  - apply I2. intros Ha. apply Hb. now apply H.
Qed.

Lemma size_tag_sized s done s1 x s2 u :
  List.length thresholds = Z.to_nat steps ->
  sized_so_far s done s1 ->
  size_tag libm_log max_weight thresholds steps distribution x s1
  = (s2, Ok u) ->
  sized_so_far s (x :: done) s2.
Proof.
  intros Hl [L I] E.
  destruct (nth_error s1 x) as [tx|] eqn:Ex.
  2:{ unfold size_tag, bind, get_count in E. rewrite Ex in E. discriminate. }
  destruct (nth_error s x) as [t|] eqn:Et.
  2:{ apply nth_error_None in Et.
      assert (nth_error s1 x <> None) by congruence.
      apply nth_error_Some in H. lia. }
  assert (Hc : count tx = count t).
  { destruct (I x t Et) as [I1 I2].
    destruct (in_dec Nat.eq_dec x done) as [Hd|Hd].
    - destruct (I1 Hd) as (w & _ & Hx). rewrite Ex in Hx. injection Hx as ->.
      apply sized_tag_count.
    - rewrite (I2 Hd) in Ex. now injection Ex as ->. }
  destruct (weigh t) as [w|e] eqn:Ew.
  2:{ rewrite (CloudFacts.size_tag_eq _ _ _ _ _ _ _ _ Ex), Hc in E.
      unfold weigh in Ew. rewrite Ew in E. discriminate. }
  assert (Ew' : _calculate_tag_weight libm_log (count tx) max_weight
                  distribution = Ok w) by (rewrite Hc; exact Ew).
  rewrite (CloudFacts.size_tag_first _ _ _ _ _ _ _ _ _ Ex Hl Ew') in E.
  remember (match first_admitting w thresholds 0 with
            | Some i => fst (set_font_size x (i + 1) s1)
            | None => s1
            end) as s1' eqn:Es1.
  injection E as <- _.
  assert (Htx : tx = t \/ tx = sized_tag thresholds w t).
  { destruct (I x t Et) as [I1 I2].
    destruct (in_dec Nat.eq_dec x done) as [Hd|Hd].
    - destruct (I1 Hd) as (w' & Hw' & Hx). rewrite Ex in Hx.
      injection Hx as ->. rewrite Ew in Hw'. injection Hw' as <-. now right.
    - rewrite (I2 Hd) in Ex. injection Ex as ->. now left. }
  assert (Ex2 : nth_error s1' x = Some (sized_tag thresholds w t)).
  { rewrite Es1. unfold sized_tag in *.
    destruct (first_admitting w thresholds 0) as [i|] eqn:Ef.
    - unfold set_font_size. simpl. rewrite CloudFacts.nth_error_update.
      rewrite Nat.eqb_refl, Ex. simpl.
      destruct Htx as [->| ->]; reflexivity.
    - rewrite Ex. destruct Htx as [->| ->]; reflexivity. }
  assert (Ek : forall k, k <> x -> nth_error s1' k = nth_error s1 k).
  { intros k Hk. rewrite Es1.
    destruct (first_admitting w thresholds 0); [|reflexivity].
    unfold set_font_size. simpl. rewrite CloudFacts.nth_error_update.
    destruct (Nat.eqb_spec k x); [contradiction | reflexivity]. }
  assert (L' : List.length s1' = List.length s).
  { rewrite Es1. destruct (first_admitting w thresholds 0); [|exact L].
    unfold set_font_size. simpl. now rewrite CloudFacts.update_length. }
  clear Es1. split; [exact L'|].
  intros k t' Hk. destruct (Nat.eq_dec k x) as [->|Hkx].
  - rewrite Et in Hk. injection Hk as <-. split.
    + intros _. exists w. split; [exact Ew | exact Ex2].
    + intros H. exfalso. apply H. now left.
  - destruct (I k t' Hk) as [I1 I2]. split.
    + intros [H|H]; [congruence|].
      destruct (I1 H) as (w0 & Hw0 & Hx0). exists w0.
      split; [exact Hw0|]. rewrite (Ek k Hkx). exact Hx0.
    + intros H. rewrite (Ek k Hkx). apply I2. intros H'. apply H. now right.
Qed.

Lemma for_each_sized s todo : forall done s1 s2 u,
  List.length thresholds = Z.to_nat steps ->
  sized_so_far s done s1 ->
  for_each (size_tag libm_log max_weight thresholds steps distribution)
           todo s1 = (s2, Ok u) ->
  sized_so_far s (todo ++ done) s2.
Proof.
  induction todo as [|x todo IH]; intros done s1 s2 u Hl Hi.
  - simpl. unfold ret. intros E. now injection E as <-.
  - rewrite CloudFacts.for_each_cons.
    destruct (size_tag libm_log max_weight thresholds steps distribution x s1)
      as [s1' [u'|e]] eqn:E1; [|discriminate].
    intros E2. apply (size_tag_sized s done s1 x s1' u' Hl Hi) in E1.
    apply (IH _ _ _ _ Hl E1) in E2.
    eapply sized_so_far_ext; [|exact E2].
    intros k. rewrite !in_app_iff. simpl. tauto.
Qed.

(** The loop goes through when every tag is in the store and has a
    weight. *)
Lemma for_each_succeeds todo : forall s1,
  List.length thresholds = Z.to_nat steps ->
  (forall x, In x todo -> exists t w, nth_error s1 x = Some t /\ weigh t = Ok w) ->
  exists s2,
    for_each (size_tag libm_log max_weight thresholds steps distribution)
             todo s1 = (s2, Ok tt).
Proof.
  induction todo as [|x todo IH]; intros s1 Hl Hv.
  - exists s1. reflexivity.
  - rewrite CloudFacts.for_each_cons.
    destruct (Hv x (or_introl eq_refl)) as (t & w & Ex & Ew).
    rewrite (CloudFacts.size_tag_first _ _ _ _ _ _ _ _ _ Ex Hl Ew).
    apply IH; [exact Hl|]. intros y Hy.
    destruct (Hv y (or_intror Hy)) as (ty & wy & Ey & Ewy).
    destruct (first_admitting w thresholds 0) as [i|]; [|eauto].
    unfold set_font_size. simpl. rewrite CloudFacts.nth_error_update, Ey.
    destruct (y =? x)%nat; simpl; eauto.
Qed.

End WithLog.

End CloudMore.

Module CloudErrors.

(** The exceptions a call of [calculate_cloud] can end in. *)
Definition expected (e : exn) : Prop := e <> IndexError.

Lemma for_list_get_count_error tags : forall s s1 e,
  for_list get_count tags s = (s1, Err e) -> e = AttributeError.
Proof.
  induction tags as [|tag tags IH]; intros s s1 e; simpl; [discriminate|].
  unfold bind. unfold get_count at 1.
  destruct (nth_error s tag); [|congruence].
  destruct (for_list get_count tags s) as [s2 [cs|e']] eqn:E; [discriminate|].
  intros H. injection H as _ <-. eapply IH. exact E.
Qed.

Lemma float_of_int_error n e : float_of_int n = Err e -> e = OverflowError.
Proof. unfold float_of_int. destruct (is_infinity _); congruence. Qed.

Lemma map_result_error {A B} (f : A -> result B) (P : exn -> Prop) l e :
  (forall x e, f x = Err e -> P e) -> map_result f l = Err e -> P e.
Proof.
  intros Hf. induction l as [|x l IH]; simpl; [discriminate|].
  destruct (f x) eqn:Ex; [|intros H; injection H as <-; eapply Hf; exact Ex].
  destruct (map_result f l); [discriminate|].
  intros H. injection H as <-. now apply IH.
Qed.

Lemma thresholds_error mn mx steps e :
  _calculate_thresholds mn mx steps = Err e -> expected e.
Proof.
  unfold _calculate_thresholds.
  destruct (float_of_int steps) eqn:E1;
    [|intros H; injection H as <-; apply float_of_int_error in E1;
      subst; discriminate].
  unfold float_div. destruct (_ =? 0)%float;
    [intros H; injection H as <-; discriminate|].
  apply map_result_error. intros i e'.
  destruct (float_of_int i) eqn:E2; [discriminate|].
  intros H. injection H as <-. apply float_of_int_error in E2.
  subst. discriminate.
Qed.

Lemma weights_error tags steps s s1 e :
  weights tags steps s = (s1, Err e) -> expected e.
Proof.
  unfold weights, bind.
  destruct (for_list get_count tags s) as [s2 [[|c cs]|e']] eqn:E.
  - unfold raise. intros H. injection H as _ <-. discriminate.
  - unfold lift.
    destruct (float_of_int (int_min c cs)) eqn:E1;
      [|intros H; injection H as _ <-; apply float_of_int_error in E1;
        subst; discriminate].
    destruct (float_of_int (int_max c cs)) eqn:E2;
      [|intros H; injection H as _ <-; apply float_of_int_error in E2;
        subst; discriminate].
    destruct (_calculate_thresholds _ _ _) eqn:E3; [discriminate|].
    intros H. injection H as _ <-. eapply thresholds_error. exact E3.
  - intros H. injection H as _ <-.
    apply for_list_get_count_error in E. subst. discriminate.
Qed.

Lemma tag_weight_error libm_log c mx d e :
  _calculate_tag_weight libm_log c mx d = Err e -> expected e.
Proof.
  unfold _calculate_tag_weight, math_log_int, math_log, float_div.
  destruct (_ || _); [discriminate|].
  destruct (d =? LOGARITHMIC)%Z.
  2:{ intros H; injection H as <-.
      destruct (CloudFacts.invalid_distribution_value_error d) as (msg & ->).
      discriminate. }
  destruct (c <=? 0)%Z; [intros H; injection H as <-; discriminate|].
  destruct (mx <=? 0)%float; [intros H; injection H as <-; discriminate|].
  destruct (_ =? 0)%float; [|discriminate].
  intros H. injection H as <-. discriminate.
Qed.

Lemma for_each_error libm_log mx th steps d todo : forall s1 s2 e,
  List.length th = Z.to_nat steps ->
  for_each (size_tag libm_log mx th steps d) todo s1 = (s2, Err e) ->
  expected e.
Proof.
  induction todo as [|x todo IH]; intros s1 s2 e Hl; [discriminate|].
  rewrite CloudFacts.for_each_cons.
  destruct (size_tag libm_log mx th steps d x s1) as [s1' [u|e']] eqn:E1.
  - now apply IH.
  - intros H. injection H as _ <-.
    destruct (nth_error s1 x) as [t|] eqn:Ex.
    + rewrite (CloudFacts.size_tag_eq _ _ _ _ _ _ _ _ Ex) in E1.
      destruct (_calculate_tag_weight libm_log (count t) mx d) as [w|e0] eqn:Ew.
      * assert (Hi : Forall (fun i => (0 <= i < steps)%Z) (range 0 steps)).
        { rewrite Forall_forall. intros i Hi.
          apply CloudFacts.range_In in Hi. lia. }
        destruct (CloudFacts.size_loop_ok steps x w th (range 0 steps) false
                    s1 Hl Hi) as (s3 & b & E3).
        rewrite E3 in E1. discriminate.
      * injection E1 as _ <-. eapply tag_weight_error. exact Ew.
    + unfold size_tag, bind, get_count in E1. rewrite Ex in E1.
      injection E1 as _ <-. discriminate.
Qed.

End CloudErrors.

(** X8: whatever the arguments, [calculate_cloud] does not end in an
    [IndexError]: [thresholds] has an entry for every index the loop over
    [range(steps)] reads. *)
Theorem calculate_cloud_no_index_error (libm_log : float -> float)
    (tags : list ref) (steps distribution : Z) (s : store) :
  snd (calculate_cloud libm_log tags steps distribution s) <> Err IndexError.
Proof.
  rewrite CloudFacts.calculate_cloud_eq.
  destruct (0 <? List.length tags)%nat; [|discriminate].
  destruct (weights tags steps s) as [s1 [[mx th]|e]] eqn:Ew.
  - apply CloudFacts.weights_valid in Ew. destruct Ew as [_ Hl].
    destruct (for_each _ tags s1) as [s2 [u|e]] eqn:Ef; [discriminate|].
    simpl. intros H. injection H as ->.
    now apply (CloudErrors.for_each_error _ _ _ _ _ _ _ _ _ Hl Ef).
  - simpl. intros H. injection H as ->.
    now apply (CloudErrors.weights_error _ _ _ _ _ Ew).
Qed.

(** X9: whether it returns or raises, [calculate_cloud] adds no object to
    the store and removes none, and leaves every object as it was or, if
    the collection refers to it, as it was but for a [font_size] from 1 to
    [steps]: an exception undoes nothing and breaks nothing else. *)
Theorem calculate_cloud_frame_on_error (libm_log : float -> float)
    (tags : list ref) (steps distribution : Z) (s : store) :
  resized steps tags s
          (fst (calculate_cloud libm_log tags steps distribution s)).
Proof.
  destruct (calculate_cloud libm_log tags steps distribution s)
    as [s' res] eqn:E.
  eapply CloudFacts.calculate_cloud_resized. exact E.
Qed.

(** X10: with [steps] equal to 0, on a non-empty collection of tags whose
    smallest and largest counts convert to [float], [calculate_cloud]
    raises [ZeroDivisionError] and changes no tag, whatever the
    distribution. *)
Theorem calculate_cloud_zero_steps (libm_log : float -> float)
    (tags : list ref) (distribution : Z) (s : store)
    (c : Z) (cs : list Z) (min_weight max_weight : float) :
  for_list get_count tags s = (s, Ok (c :: cs)) ->
  float_of_int (int_min c cs) = Ok min_weight ->
  float_of_int (int_max c cs) = Ok max_weight ->
  calculate_cloud libm_log tags 0 distribution s = (s, Err ZeroDivisionError).
Proof.
  intros Hc Hmin Hmax. unfold calculate_cloud.
  destruct tags as [|tag tags]; [discriminate|].
  cbn [List.length Nat.ltb Nat.leb]. unfold bind at 1. rewrite Hc.
  unfold bind at 1, lift at 1. rewrite Hmin.
  unfold bind at 1, lift at 1. rewrite Hmax.
  unfold bind at 1, lift at 1. reflexivity.
Qed.

Lemma calculate_cloud_zero_steps_witness :
  calculate_cloud sample_log [0; 1]%nat 0 LINEAR
    [mkTag (lit "a") 3 None; mkTag (lit "b") 7 None]
  = ([mkTag (lit "a") 3 None; mkTag (lit "b") 7 None], Err ZeroDivisionError).
Proof.
  apply (calculate_cloud_zero_steps sample_log [0; 1]%nat LINEAR
           [mkTag (lit "a") 3 None; mkTag (lit "b") 7 None]
           3 [7%Z] 3%float 7%float); reflexivity.
Defined.

Lemma cloud_sized libm_log tags steps d s s' r mx th :
  weights tags steps s = (s, Ok (mx, th)) ->
  calculate_cloud libm_log tags steps d s = (s', Ok r) ->
  CloudMore.sized_so_far libm_log mx th d s tags s'.
Proof.
  intros Hw. rewrite CloudFacts.calculate_cloud_eq.
  destruct (0 <? List.length tags)%nat eqn:El.
  - rewrite Hw. apply CloudFacts.weights_valid in Hw. destruct Hw as [_ Hl].
    simpl in Hl.
    destruct (for_each _ tags s) as [s2 [u|e]] eqn:Ef; [|discriminate].
    intros H. injection H as <- _.
    eapply CloudMore.sized_so_far_ext;
      [|eapply (CloudMore.for_each_sized libm_log mx th steps d s tags []);
        [exact Hl | | exact Ef]].
    + intros k. now rewrite app_nil_r.
    + split; [reflexivity|]. intros k t Hk. split; [intros []|auto].
  - destruct tags; [|discriminate]. unfold weights, bind in Hw.
    simpl in Hw. discriminate.
Qed.

(** X11: after a call of [calculate_cloud] that succeeds, each tag of the
    collection has the font size [i + 1] for the first index [i] whose
    threshold is not below the tag's weight, and is unchanged if every
    threshold is below its weight; the objects outside the collection are
    unchanged. *)
Theorem calculate_cloud_sizes (libm_log : float -> float)
    (tags : list ref) (steps distribution : Z) (s s' : store) (r : list ref)
    (max_weight : float) (thresholds : list float) :
  weights tags steps s = (s, Ok (max_weight, thresholds)) ->
  calculate_cloud libm_log tags steps distribution s = (s', Ok r) ->
  forall k t, nth_error s k = Some t ->
    (In k tags ->
       exists w,
         _calculate_tag_weight libm_log (count t) max_weight distribution
         = Ok w
         /\ nth_error s' k = Some (sized_tag thresholds w t))
    /\ (~ In k tags -> nth_error s' k = Some t).
Proof.
  intros Hw Hc. destruct (cloud_sized _ _ _ _ _ _ _ _ _ Hw Hc) as [_ H].
  exact H.
Qed.

Lemma calculate_cloud_sizes_witness :
  exists w,
    _calculate_tag_weight sample_log 10 100 LOGARITHMIC = Ok w
    /\ nth_error [mkTag (lit "a") 1 (Some 1%Z); mkTag (lit "b") 10 (Some 2%Z);
                  mkTag (lit "c") 100 (Some 4%Z)] 1
       = Some (sized_tag [25.75; 50.5; 75.25; 100]%float w
                         (mkTag (lit "b") 10 None)).
Proof.
  assert (Hw : weights [0; 1; 2]%nat 4
                 [mkTag (lit "a") 1 None; mkTag (lit "b") 10 None;
                  mkTag (lit "c") 100 None]
               = ([mkTag (lit "a") 1 None; mkTag (lit "b") 10 None;
                   mkTag (lit "c") 100 None],
                  Ok (100%float, [25.75; 50.5; 75.25; 100]%float)))
    by (vm_compute; reflexivity).
  assert (Hc : calculate_cloud sample_log [0; 1; 2]%nat 4 LOGARITHMIC
                 [mkTag (lit "a") 1 None; mkTag (lit "b") 10 None;
                  mkTag (lit "c") 100 None]
               = ([mkTag (lit "a") 1 (Some 1%Z); mkTag (lit "b") 10 (Some 2%Z);
                   mkTag (lit "c") 100 (Some 4%Z)], Ok [0; 1; 2]%nat))
    by (vm_compute; reflexivity).
  apply (proj1 (calculate_cloud_sizes _ _ _ _ _ _ _ _ _ Hw Hc
                  1%nat (mkTag (lit "b") 10 None) eq_refl)).
  simpl. auto.
Defined.

Lemma tag_weight_linear libm_log c mx :
  _calculate_tag_weight libm_log c mx LINEAR = Ok (PyInt c).
Proof. reflexivity. Qed.

(** X12: with the linear distribution, font sizes follow the counts: of two
    tags of the collection, if the one with the larger count had no font
    size before the call and has the font size [fb] after it, the one with
    the smaller or equal count has a font size that is at most [fb]. *)
Theorem linear_sizes_monotone (libm_log : float -> float)
    (tags : list ref) (steps : Z) (s s' : store) (r : list ref)
    (max_weight : float) (thresholds : list float)
    (a b : ref) (ta tb tb' : Tag) (fb : Z) :
  weights tags steps s = (s, Ok (max_weight, thresholds)) ->
  calculate_cloud libm_log tags steps LINEAR s = (s', Ok r) ->
  In a tags -> In b tags ->
  nth_error s a = Some ta -> nth_error s b = Some tb ->
  (count ta <= count tb)%Z ->
  font_size tb = None ->
  nth_error s' b = Some tb' -> font_size tb' = Some fb ->
  exists ta' fa,
    nth_error s' a = Some ta' /\ font_size ta' = Some fa /\ (fa <= fb)%Z.
Proof.
  intros Hw Hc Ha Hb Has Hbs Hle Hnone Hbs' Hfb.
  destruct (cloud_sized _ _ _ _ _ _ _ _ _ Hw Hc) as [_ H].
  destruct (proj1 (H a ta Has) Ha) as (wa & Ewa & Ea).
  destruct (proj1 (H b tb Hbs) Hb) as (wb & Ewb & Eb).
  rewrite tag_weight_linear in Ewa, Ewb.
  injection Ewa as <-. injection Ewb as <-.
  rewrite Hbs' in Eb. injection Eb as ->. unfold sized_tag in Hfb, Ea.
  destruct (first_admitting (PyInt (count tb)) thresholds 0) as [j|] eqn:Ej;
    [|congruence].
  simpl in Hfb. injection Hfb as <-.
  destruct (CloudMore.first_admitting_mono _ _ _ _ _ Hle Ej) as (i & Ei & Hij).
  rewrite Ei in Ea. eexists. exists (i + 1)%Z.
  split; [exact Ea|]. split; [reflexivity | lia].
Qed.

Lemma linear_sizes_monotone_witness :
  exists ta' fa,
    nth_error [mkTag (lit "a") 3 (Some 1%Z); mkTag (lit "b") 9 (Some 4%Z)] 0
    = Some ta' /\ font_size ta' = Some fa /\ (fa <= 4)%Z.
Proof.
  apply (linear_sizes_monotone sample_log [0; 1]%nat 4
           [mkTag (lit "a") 3 None; mkTag (lit "b") 9 None]
           [mkTag (lit "a") 3 (Some 1%Z); mkTag (lit "b") 9 (Some 4%Z)]
           [0; 1]%nat 9%float [4.5; 6; 7.5; 9]%float
           0%nat 1%nat (mkTag (lit "a") 3 None) (mkTag (lit "b") 9 None)
           (mkTag (lit "b") 9 (Some 4%Z)) 4).
  - vm_compute. reflexivity.
  - vm_compute. reflexivity.
  - simpl. auto.
  - simpl. auto.
  - reflexivity.
  - reflexivity.
  - simpl. lia.
  - reflexivity.
  - reflexivity.
  - reflexivity.
Defined.

(** X13: with a negative [steps] and the linear distribution, on a
    collection for which [max_weight] and the thresholds are computed
    without error, [calculate_cloud] succeeds and sizes no tag: there is no
    threshold and the loop over [range(steps)] has no turn. *)
Theorem calculate_cloud_negative_steps (libm_log : float -> float)
    (tags : list ref) (steps : Z) (s : store)
    (max_weight : float) (thresholds : list float) :
  (steps < 0)%Z ->
  weights tags steps s = (s, Ok (max_weight, thresholds)) ->
  thresholds = []
  /\ calculate_cloud libm_log tags steps LINEAR s = (s, Ok tags).
Proof.
  intros Hs Hw.
  destruct (CloudFacts.weights_valid _ _ _ _ _ Hw) as [Hv Hl]. simpl in Hl.
  assert (Ht : thresholds = []).
  { destruct thresholds; [reflexivity|]. simpl in Hl. lia. }
  split; [exact Ht|]. rewrite CloudFacts.calculate_cloud_eq, Hw.
  assert (Hf : for_each (size_tag libm_log max_weight thresholds steps LINEAR)
                        tags s = (s, Ok tt)).
  { clear Hw. induction tags as [|x tags IH]; [reflexivity|].
    inversion Hv as [|? ? Hx Hr]; subst.
    rewrite CloudFacts.for_each_cons.
    destruct (nth_error s x) as [t|] eqn:Ex; [|congruence].
    rewrite (CloudFacts.size_tag_first libm_log max_weight [] steps LINEAR
               x s t (PyInt (count t)) Ex Hl (tag_weight_linear _ _ _)).
    simpl. now apply IH. }
  rewrite Hf. destruct tags; [|reflexivity].
  unfold weights, bind in Hw. simpl in Hw. discriminate.
Qed.

Lemma calculate_cloud_negative_steps_witness :
  @nil float = []
  /\ calculate_cloud sample_log [0; 1]%nat (-2) LINEAR
       [mkTag (lit "a") 3 None; mkTag (lit "b") 9 None]
     = ([mkTag (lit "a") 3 None; mkTag (lit "b") 9 None], Ok [0; 1]%nat).
Proof.
  apply (calculate_cloud_negative_steps sample_log [0; 1]%nat (-2)
           [mkTag (lit "a") 3 None; mkTag (lit "b") 9 None] 9%float []).
  - lia.
  - vm_compute. reflexivity.
Defined.

Lemma for_list_get_count_ones tags s :
  (forall r, In r tags -> exists t, nth_error s r = Some t /\ count t = 1%Z) ->
  for_list get_count tags s = (s, Ok (map (fun _ : nat => 1%Z) tags)).
Proof.
  induction tags as [|x tags IH]; intros H; [reflexivity|].
  simpl. unfold bind. unfold get_count at 1.
  destruct (H x (or_introl eq_refl)) as (t & -> & ->).
  rewrite IH by (intros r Hr; apply H; now right). reflexivity.
Qed.

Lemma int_min_ones (l : list nat) :
  int_min 1 (map (fun _ => 1%Z) l) = 1%Z
  /\ int_max 1 (map (fun _ => 1%Z) l) = 1%Z.
Proof.
  unfold int_min, int_max. induction l as [|x l [IH1 IH2]]; simpl; auto.
Qed.

(** X14: on a non-empty collection of tags that all have the count 1, with
    the default of 4 steps and any distribution value, recognised or not,
    [calculate_cloud] succeeds and gives every tag of the collection the
    font size 1. *)
Theorem calculate_cloud_all_ones (libm_log : float -> float)
    (tags : list ref) (distribution : Z) (s : store) :
  tags <> [] ->
  (forall r, In r tags -> exists t, nth_error s r = Some t /\ count t = 1%Z) ->
  exists s',
    calculate_cloud libm_log tags 4 distribution s = (s', Ok tags)
    /\ forall r, In r tags ->
         exists t', nth_error s' r = Some t' /\ font_size t' = Some 1%Z.
Proof.
  intros Hne Hones.
  assert (Hw : weights tags 4 s = (s, Ok (1%float, [1; 1; 1; 1]%float))).
  { unfold weights, bind. rewrite for_list_get_count_ones by exact Hones.
    destruct tags as [|x tags]; [congruence|]. cbn [map].
    destruct (int_min_ones tags) as [-> ->]. vm_compute. reflexivity. }
  assert (Hweigh : _calculate_tag_weight libm_log 1 1 distribution
                   = Ok (PyInt 1)).
  { unfold _calculate_tag_weight.
    change (float_eq_int 1 1) with true. now rewrite orb_true_r. }
  destruct (CloudMore.for_each_succeeds libm_log 1%float [1; 1; 1; 1]%float
              4 distribution tags s eq_refl) as (s' & Hf).
  { intros x Hx. destruct (Hones x Hx) as (t & Ht & Hc).
    exists t, (PyInt 1). split; [exact Ht|]. now rewrite Hc. }
  assert (Hc : calculate_cloud libm_log tags 4 distribution s = (s', Ok tags)).
  { rewrite CloudFacts.calculate_cloud_eq, Hw, Hf.
    destruct tags; [congruence | reflexivity]. }
  exists s'. split; [exact Hc|]. intros r Hr.
  destruct (Hones r Hr) as (t & Ht & Hct).
  destruct (cloud_sized _ _ _ _ _ _ _ _ _ Hw Hc) as [_ H].
  destruct (proj1 (H r t Ht) Hr) as (w & Ew & Er).
  rewrite Hct, Hweigh in Ew. injection Ew as <-.
  eexists. split; [exact Er|]. reflexivity.
Qed.

Lemma calculate_cloud_all_ones_witness :
  exists s',
    calculate_cloud sample_log [0; 1; 0]%nat 4 7
      [mkTag (lit "a") 1 None; mkTag (lit "b") 1 (Some 3%Z)]
    = (s', Ok [0; 1; 0]%nat)
    /\ forall r, In r [0; 1; 0]%nat ->
         exists t', nth_error s' r = Some t' /\ font_size t' = Some 1%Z.
Proof.
  apply (calculate_cloud_all_ones sample_log [0; 1; 0]%nat 7
           [mkTag (lit "a") 1 None; mkTag (lit "b") 1 (Some 3%Z)]).
  - discriminate.
  - intros r [<-|[<-|[<-|[]]]]; eexists; split; reflexivity.
Defined.

(** * The distribution argument *)










(** * Tag list coercion *)

Module TagListFacts.

Definition label (l : string) : Prop :=
  l = "string"%string \/ l = "tag"%string \/ l = "int"%string.

Lemma contents_mem_add l l' c :
  contents_mem l (contents_add l' c) = String.eqb l l' || contents_mem l c.
Proof.
  unfold contents_mem. induction c as [|x c IH]; simpl.
  - reflexivity.
  - destruct (String.eqb_spec x l') as [->|Hx]; simpl.
    + destruct (String.eqb l l'); reflexivity.
    + rewrite IH. destruct (String.eqb l l'), (String.eqb l x); reflexivity.
Qed.

Lemma contents_add_In l l' c : In l (contents_add l' c) <-> l = l' \/ In l c.
Proof.
  induction c as [|x c IH]; simpl; [intuition|].
  destruct (String.eqb_spec x l') as [->|Hx]; simpl.
  - intuition.
  - rewrite IH. intuition.
Qed.

Lemma contents_add_NoDup l c : NoDup c -> NoDup (contents_add l c).
Proof.
  induction 1 as [|x c Hx Hc IH]; simpl; [repeat constructor; intros []|].
  destruct (String.eqb_spec x l) as [->|Hn]; [now constructor|].
  constructor; [|exact IH]. rewrite contents_add_In. intros [->|H]; auto.
Qed.

(** What [contents] holds after the loop over the items. *)
Record summary (items : list pyobj) (c0 c : list string) : Prop := {
  sum_nodup : NoDup c0 -> NoDup c;
  sum_label : (forall l, In l c0 -> label l) -> forall l, In l c -> label l;
  sum_string : contents_mem "string" c
               = contents_mem "string" c0 || existsb is_name items;
  sum_tag : contents_mem "tag" c = contents_mem "tag" c0 || existsb is_tag items;
  sum_int : contents_mem "int" c = contents_mem "int" c0 || existsb is_id items
}.

Lemma note_items items : forall c0,
  summary items c0 (fold_left note_item items c0).
Proof.
  induction items as [|item items IH]; intros c0.
  - simpl. constructor; auto; now rewrite orb_false_r.
  - simpl. destruct (IH (note_item c0 item)) as [H1 H2 H3 H4 H5].
    constructor.
    + intros H. apply H1. destruct item; simpl; auto using contents_add_NoDup.
    + intros H. apply H2. intros l Hl.
      destruct item; simpl in Hl; auto; apply contents_add_In in Hl;
        (destruct Hl as [->|Hl]; [unfold label; auto | auto]).
    + rewrite H3. destruct item; simpl; rewrite ?contents_mem_add; simpl;
        destruct (contents_mem "string" c0), (existsb is_name items); reflexivity.
    + rewrite H4. destruct item; simpl; rewrite ?contents_mem_add; simpl;
        destruct (contents_mem "tag" c0), (existsb is_tag items); reflexivity.
    + rewrite H5. destruct item; simpl; rewrite ?contents_mem_add; simpl;
        destruct (contents_mem "int" c0), (existsb is_id items); reflexivity.
Qed.

Definition one (b : bool) : nat := if b then 1 else 0.

Lemma contents_mem_false l c : ~ In l c -> contents_mem l c = false.
Proof.
  intros H. unfold contents_mem. destruct (existsb _ c) eqn:E; [|reflexivity].
  apply existsb_exists in E. destruct E as (x & Hx & E).
  apply String.eqb_eq in E. subst. contradiction.
Qed.

(** A set of labels has as many members as there are labels in it. *)
Lemma contents_length c :
  NoDup c -> (forall l, In l c -> label l) ->
  List.length c
  = (one (contents_mem "string" c) + one (contents_mem "tag" c)
     + one (contents_mem "int" c))%nat.
Proof.
  induction 1 as [|x c Hx Hc IH]; intros Hl; [reflexivity|].
  cbn [List.length]. rewrite IH by (intros l H; apply Hl; now right).
  pose proof (contents_mem_false x c Hx) as Hf.
  assert (Hcons : forall l, contents_mem l (x :: c)
                            = String.eqb l x || contents_mem l c)
    by reflexivity.
  destruct (Hl x (or_introl eq_refl)) as [->|[->| ->]];
    rewrite !Hcons, Hf;
    destruct (contents_mem "string" c), (contents_mem "tag" c),
      (contents_mem "int" c); reflexivity.
Qed.

End TagListFacts.

Lemma sequence_table text_of tags items :
  items <> [] ->
  get_tag_list_of_sequence text_of tags items
  = match existsb is_name items, existsb is_tag items, existsb is_id items with
    | true, false, false => Ok (OFilterNames (map (force_str text_of) items))
    | false, true, false => Ok tags
    | false, false, true => Ok (OFilterIds tags)
    | _, _, _ => Err (ValueError no_tags_message)
    end.
Proof.
  intros Hne. unfold get_tag_list_of_sequence.
  destruct items as [|item items]; [congruence|].
  cbn [List.length Nat.eqb].
  destruct (TagListFacts.note_items (item :: items) []) as [H1 H2 H3 H4 H5].
  rewrite TagListFacts.contents_length
    by (first [apply H1; apply NoDup_nil | apply H2; intros l []]).
  rewrite H3, H4, H5.
  set (names := existsb is_name (item :: items)).
  set (objects := existsb is_tag (item :: items)).
  set (ids := existsb is_id (item :: items)).
  cbn [contents_mem existsb orb].
  destruct names, objects, ids; reflexivity.
Qed.

(** X15: for a non-empty list or tuple, [get_tag_list] looks only at
    which of the three kinds of item occur in it, names, [Tag] objects and
    ids: with names only it queries the tags of these names, every item
    passed through [force_str]; with [Tag] objects only it returns the
    sequence; with ids only it queries by id; with none or more than one of
    the kinds it raises [ValueError].  Items of any other type do not
    count. *)
Theorem get_tag_list_sequence (text_of : pyobj -> str)
    (tuple : bool) (items : list pyobj) :
  items <> [] ->
  get_tag_list text_of (sequence tuple items)
  = match existsb is_name items, existsb is_tag items, existsb is_id items with
    | true, false, false => Ok (OFilterNames (map (force_str text_of) items))
    | false, true, false => Ok (sequence tuple items)
    | false, false, true => Ok (OFilterIds (sequence tuple items))
    | _, _, _ => Err (ValueError no_tags_message)
    end.
Proof.
  intros Hne. destruct tuple; simpl; now apply sequence_table.
Qed.

Lemma get_tag_list_sequence_witness :
  get_tag_list (fun _ => lit "None") (sequence false [OStr (lit "a"); ONone])
  = Ok (OFilterNames [lit "a"; lit "None"])
  /\ get_tag_list (fun _ => lit "None") (sequence true [OInt 3; OStr (lit "a")])
     = Err (ValueError no_tags_message)
  /\ get_tag_list (fun _ => lit "None") (sequence true [ONone])
     = Err (ValueError no_tags_message).
Proof.
  split; [|split].
  - apply (get_tag_list_sequence (fun _ => lit "None") false
             [OStr (lit "a"); ONone]). discriminate.
  - apply (get_tag_list_sequence (fun _ => lit "None") true
             [OInt 3; OStr (lit "a")]). discriminate.
  - apply (get_tag_list_sequence (fun _ => lit "None") true [ONone]).
    discriminate.
Defined.

(** X16: [get_tag_list] never returns [None]: where it does not raise, it
    returns a list, the sequence it was given or a query set, so the chain
    of tests on [contents] leaves no case out. *)
Theorem get_tag_list_never_none (text_of : pyobj -> str) (tags : pyobj) :
  get_tag_list text_of tags <> Ok ONone.
Proof.
  assert (Hseq : forall t items,
            t <> ONone -> get_tag_list_of_sequence text_of t items <> Ok ONone).
  { intros t items Ht. destruct items as [|item items].
    - unfold get_tag_list_of_sequence. simpl. congruence.
    - rewrite sequence_table by discriminate.
      destruct (existsb is_name (item :: items)),
        (existsb is_tag (item :: items)), (existsb is_id (item :: items));
        congruence. }
  destruct tags as [|s|n|t|items|items|[|] k|names|ids|k];
    try (apply Hseq; discriminate); try (simpl; discriminate).
  unfold get_tag_list.
  destruct (ParserFacts.parse_shape (Some s)) as (ws & -> & _). discriminate.
Qed.

(** X17: given a string, [get_tag_list] does not raise: it queries the
    tags named by [parse_tag_input], names that are strictly increasing,
    so without duplicates, and clean. *)
Theorem get_tag_list_of_string (text_of : pyobj -> str) (s : str) :
  exists names,
    get_tag_list text_of (OStr s) = Ok (OFilterNames names)
    /\ parse_tag_input (Some s) = Ok names
    /\ StronglySorted Py.lt names /\ Forall clean names.
Proof.
  destruct (ParserFacts.parse_shape (Some s)) as (ws & E & Hc).
  destruct (ParserFacts.sorted_set_spec ws) as (Hs & _ & Hin).
  exists (sorted (set ws)). unfold get_tag_list. rewrite E.
  repeat split; try assumption.
  rewrite Forall_forall in *. intros w Hw. apply Hc. now apply Hin.
Qed.

(** * The tag field *)

Module FieldFacts.

Lemma dict_get_set key v d : dict_get key (dict_set key v d) = Some v.
Proof. unfold dict_get, dict_set. simpl. now rewrite String.eqb_refl. Qed.

Lemma dict_get_set_other key key' v d :
  key <> key' -> dict_get key (dict_set key' v d) = dict_get key d.
Proof.
  intros Hk. unfold dict_get, dict_set. simpl.
  destruct (String.eqb_spec key' key) as [E|_]; [congruence|].
  induction d as [|[k w] d IH]; simpl; [reflexivity|].
  destruct (String.eqb_spec k key') as [->|Hn]; simpl.
  - destruct (String.eqb_spec key' key) as [E|_]; [congruence | exact IH].
  - destruct (String.eqb k key); [reflexivity | exact IH].
Qed.

Lemma length_append a b :
  String.length (String.append a b) = (String.length a + String.length b)%nat.
Proof. induction a as [|c a IH]; simpl; [reflexivity | now rewrite IH]. Qed.

(** The cache is kept under a name of its own. *)
Lemma cache_name_other attname : attname <> cache_name attname.
Proof.
  intros E. apply (f_equal String.length) in E. unfold cache_name in E.
  rewrite !length_append in E. simpl in E. lia.
Qed.

Lemma cache_after_set attname i v :
  _get_instance_tag_cache attname (_set_instance_tag_cache attname i v) = v.
Proof.
  unfold _get_instance_tag_cache, _set_instance_tag_cache. simpl.
  now rewrite dict_get_set.
Qed.

Lemma dict_after_set attname i v :
  dict_get attname (attrs (_set_instance_tag_cache attname i v)) = Some v.
Proof.
  unfold _set_instance_tag_cache. simpl.
  rewrite dict_get_set_other by apply cache_name_other.
  apply dict_get_set.
Qed.

(** A read with a string in the cache returns it and changes nothing. *)
Lemma get_cached attname db usage i s :
  _get_instance_tag_cache attname i = VStr s ->
  __get__ attname db usage (Some i) = (VStr s, Some i).
Proof. intros E. unfold __get__. rewrite E. now rewrite E. Qed.

(** A read with nothing in the cache fills it. *)
Lemma get_uncached attname db usage i :
  _get_instance_tag_cache attname i = VNone ->
  let text := match pk i with
              | None => []
              | Some _ => edit_string_for_tags (db i)
              end in
  __get__ attname db usage (Some i)
  = (VStr text, Some (_set_instance_tag_cache attname i (VStr text))).
Proof.
  intros E. unfold __get__. rewrite E.
  destruct (pk i); now rewrite cache_after_set.
Qed.

End FieldFacts.

(** X18: what is assigned to the field is what is read back: after
    [__set__] with a string, [__get__] returns that string, in lower case
    if [FORCE_LOWERCASE_TAGS] is set, without a query of the tags and
    without a change to the instance; the instance's [__dict__] holds the
    same string under the field's [attname]. *)
Theorem field_set_then_get (attname : string) (force_lowercase : bool)
    (lower : str -> str) (get_for_object : instance -> list Tag)
    (usage_for_model : list Tag) (i : instance) (s : str) :
  let stored := if force_lowercase then lower s else s in
  exists i',
    __set__ attname force_lowercase lower (Some i) (VStr s) = Ok i'
    /\ __get__ attname get_for_object usage_for_model (Some i')
       = (VStr stored, Some i')
    /\ dict_get attname (attrs i') = Some (VStr stored)
    /\ pk i' = pk i.
Proof.
  cbv zeta. eexists. split; [reflexivity|].
  split; [|split; [|reflexivity]].
  - apply FieldFacts.get_cached. rewrite FieldFacts.cache_after_set.
    now destruct force_lowercase.
  - rewrite FieldFacts.dict_after_set. now destruct force_lowercase.
Qed.

(** X19: the field reads the tags of an instance at most once: on an
    instance whose cache is absent or holds [None] or a string, [__get__]
    returns a string, never [None], and a second [__get__] on the
    instance it leaves returns the same string and the same instance
    whatever the tags of the instance have become by then. *)
Theorem field_get_is_cached (attname : string)
    (get_for_object get_for_object' : instance -> list Tag)
    (usage_for_model usage_for_model' : list Tag) (i : instance) :
  exists s i',
    __get__ attname get_for_object usage_for_model (Some i)
    = (VStr s, Some i')
    /\ __get__ attname get_for_object' usage_for_model' (Some i')
       = (VStr s, Some i').
Proof.
  destruct (_get_instance_tag_cache attname i) as [|s] eqn:E.
  - pose proof (FieldFacts.get_uncached attname get_for_object
                  usage_for_model i E) as H. cbv zeta in H.
    eexists. eexists. split; [exact H|].
    apply FieldFacts.get_cached, FieldFacts.cache_after_set.
  - exists s, i. split; now apply FieldFacts.get_cached.
Qed.

(** X20: after [__delete__] the field reads as the empty string, and
    [_save] hands the empty string to [update_tags], which clears the tags
    of the instance; assigning [None] instead empties the cache, so that
    [_save] does not call [update_tags] at all. *)
Theorem field_delete_and_reset (attname : string) (force_lowercase : bool)
    (lower : str -> str) (get_for_object : instance -> list Tag)
    (usage_for_model : list Tag) (i : instance) :
  __get__ attname get_for_object usage_for_model
          (Some (__delete__ attname i))
  = (VStr [], Some (__delete__ attname i))
  /\ _save attname (__delete__ attname i) = Some []
  /\ exists i',
       __set__ attname force_lowercase lower (Some i) VNone = Ok i'
       /\ _save attname i' = None.
Proof.
  split; [|split].
  - apply FieldFacts.get_cached, FieldFacts.cache_after_set.
  - unfold _save, __delete__. now rewrite FieldFacts.cache_after_set.
  - eexists. split; [reflexivity|].
    unfold _save. now rewrite FieldFacts.cache_after_set.
Qed.

(** X21: the string the field shows for a saved instance that has nothing
    in the cache parses back to the tags of the instance: if their names
    are clean and contain no double quote, [parse_tag_input] of what
    [__get__] returns is the sorted set of these names, and [_save] then
    hands the same string to [update_tags]. *)
Theorem field_text_parses_back (attname : string)
    (get_for_object : instance -> list Tag) (usage_for_model : list Tag)
    (i : instance) (key : Z) :
  pk i = Some key ->
  _get_instance_tag_cache attname i = VNone ->
  Forall (fun t => quotable (name t)) (get_for_object i) ->
  exists text i',
    __get__ attname get_for_object usage_for_model (Some i)
    = (VStr text, Some i')
    /\ parse_tag_input (Some text)
       = Ok (sorted (set (map name (get_for_object i))))
    /\ _save attname i' = Some text.
Proof.
  intros Hpk Hc Hq.
  pose proof (FieldFacts.get_uncached attname get_for_object
                usage_for_model i Hc) as H.
  cbv zeta in H. rewrite Hpk in H.
  eexists. eexists. split; [exact H|]. split.
  - now apply round_trip_quotable.
  - unfold _save. now rewrite FieldFacts.cache_after_set.
Qed.

Lemma field_text_parses_back_witness :
  exists text i',
    __get__ "tags"
      (fun _ => [tag_named (lit "x, y"); tag_named (lit "foo bar")])
      [] (Some (mkInstance (Some 7%Z) []))
    = (VStr text, Some i')
    /\ parse_tag_input (Some text)
       = Ok (sorted (set (map name [tag_named (lit "x, y");
                                    tag_named (lit "foo bar")])))
    /\ _save "tags" i' = Some text.
Proof.
  apply (field_text_parses_back "tags"
           (fun _ => [tag_named (lit "x, y"); tag_named (lit "foo bar")])
           [] (mkInstance (Some 7%Z) []) 7).
  - reflexivity.
  - reflexivity.
  - repeat (apply Forall_cons || apply Forall_nil);
      (split; [split; [discriminate | split; reflexivity] | reflexivity]).
Defined.

(** X22: [_calculate_thresholds] returns one threshold for each of the
    [steps] font sizes, and returns only if [steps] is not zero; it raises
    nothing but [ZeroDivisionError] and, for numbers beyond the range of
    [float], [OverflowError]. *)
Theorem thresholds_shape (min_weight max_weight : float) (steps : Z) :
  match _calculate_thresholds min_weight max_weight steps with
  | Ok thresholds =>
      List.length thresholds = Z.to_nat steps /\ steps <> 0%Z
  | Err e => e = ZeroDivisionError \/ e = OverflowError
  end.
Proof.
  destruct (_calculate_thresholds min_weight max_weight steps) as [th|e] eqn:E.
  - split; [eapply CloudFacts.thresholds_length; exact E|].
    intros ->. discriminate E.
  - unfold _calculate_thresholds in E.
    destruct (float_of_int steps) eqn:E1.
    + unfold float_div in E. destruct (_ =? 0)%float.
      * injection E as <-. now left.
      * right. revert E.
        apply (CloudErrors.map_result_error _ (fun e => e = OverflowError)).
        intros i e'. destruct (float_of_int i) eqn:E2; [discriminate|].
        intros H. injection H as <-.
        eapply CloudErrors.float_of_int_error. exact E2.
    + injection E as <-. right.
      eapply CloudErrors.float_of_int_error. exact E1.
Qed.
